(** * AMS-APP: the record stores of the audit management demo

    A shallow embedding of [AMS-APP.py]: the three in-memory stores kept in
    [st.session_state], the identifier generator, the three [add_*]
    operations, the form submit handlers, the status-update loops and the
    dashboard queries, followed by the properties of the specification
    that concern them.

    A record is a Python [dict] with string keys, embedded as a
    [gmap string value]; a store is the Python [list] of these dicts in
    insertion order.  Exceptions are explicit: a computation that can raise
    returns a [result]. *)

From Stdlib Require Import ZArith Ascii PrimFloat FloatOps SpecFloat Uint63.
From stdpp Require Import gmap strings list sorting.

Local Open Scope Z_scope.

(** ** Python values and exceptions *)

Inductive exn := KeyError | ValueError | TypeError | ZeroDivisionError.

Inductive result (A : Type) :=
  | Ok (a : A)
  | Raise (e : exn).
Arguments Ok {A} a.
Arguments Raise {A} e.

#[global] Instance result_ret : MRet result := λ A a, Ok a.
#[global] Instance result_bind : MBind result := λ A B f m,
  match m with Ok a => f a | Raise e => Raise e end.
#[global] Instance result_fmap : FMap result := λ A B f m,
  match m with Ok a => Ok (f a) | Raise e => Raise e end.

(** The values the application stores in a record: [None], a [str], an
    [int], a [bytes] object (an uploaded file), a [datetime.date] (by its
    proleptic Gregorian ordinal, which is what [<] on dates compares) and
    the [NaN] with which pandas fills a missing cell. *)
Inductive value :=
  | VNone
  | VStr (s : string)
  | VInt (n : Z)
  | VBytes (b : string)
  | VDate (ordinal : Z)
  | VNaN.

#[global] Instance value_eq_dec : EqDecision value.
Proof. solve_decision. Defined.

Abbreviation item := (gmap string value).

(** [d[k]] on a dict. *)
Definition getitem (d : item) (k : string) : result value :=
  match d !! k with
  | Some v => Ok v
  | None => Raise KeyError
  end.

(** ** The builtins used by [generate_id] *)

Module Py.

Definition digit_char (d : N) : ascii :=
  match d with
  | 0 => "0" | 1 => "1" | 2 => "2" | 3 => "3" | 4 => "4"
  | 5 => "5" | 6 => "6" | 7 => "7" | 8 => "8" | _ => "9"
  end%N%char.

Definition digit_val (c : ascii) : option N :=
  N.of_nat <$> Ascii.is_nat c.

(** Decimal digits of [n], most significant first, put in front of [acc].
    [fuel] bounds the number of digits. *)
Fixpoint str_go (fuel : nat) (n : N) (acc : string) : string :=
  match fuel with
  | O => acc
  | S fuel' =>
      if (n <? 10)%N then String (digit_char n) acc
      else str_go fuel' (n / 10)%N (String (digit_char (n mod 10)%N) acc)
  end.

Definition str_N (n : N) : string := str_go (S (N.to_nat (N.log2 n))) n "".

(** [str(z)] for an [int], on unbounded integers; [CPython.str] below adds
    the limit of the interpreter on the number of digits. *)
Definition str (z : Z) : string :=
  match z with
  | Z0 => "0"
  | Zpos p => str_N (Npos p)
  | Zneg p => String "-" (str_N (Npos p))
  end.

Fixpoint repeat0 (n : nat) : string :=
  match n with
  | O => ""
  | S n' => String "0" (repeat0 n')
  end.

(** [s.zfill(width)]: zeros are inserted after a leading sign. *)
Definition zfill (width : nat) (s : string) : string :=
  if decide (width ≤ String.length s)%nat then s
  else
    let fill := repeat0 (width - String.length s) in
    match s with
    | String c s' =>
        if bool_decide (c = "+"%char ∨ c = "-"%char)
        then String c (fill +:+ s')
        else fill +:+ s
    | EmptyString => fill
    end.

(** [s[n:]] on a string. *)
Fixpoint drop_str (n : nat) (s : string) : string :=
  match n, s with
  | O, _ => s
  | S n', String _ s' => drop_str n' s'
  | S _, EmptyString => EmptyString
  end.

Fixpoint lstrip (s : string) : string :=
  match s with
  | String c s' => if Ascii.is_space c then lstrip s' else s
  | EmptyString => EmptyString
  end.

Fixpoint rstrip (s : string) : string :=
  match s with
  | String c s' =>
      match rstrip s' with
      | EmptyString => if Ascii.is_space c then EmptyString else String c EmptyString
      | r => String c r
      end
  | EmptyString => EmptyString
  end.

(** The digit part of an integer literal: decimal digits, single
    underscores allowed between two digits.  [after_digit] tells whether
    the previous character was a digit. *)
Fixpoint int_digits (after_digit : bool) (acc : N) (s : string) : option N :=
  match s with
  | EmptyString => if after_digit then Some acc else None
  | String c s' =>
      match digit_val c with
      | Some d => int_digits true (10 * acc + d)%N s'
      | None =>
          if bool_decide (c = "_"%char) && after_digit
          then int_digits false acc s'
          else None
      end
  end.

(** The literal parser, which [int] calls on [bytes] as they are and on a
    [str] after [space_to_ascii]: in base 10, the white space of ASCII is
    skipped at both ends and one sign is allowed.  This is the conversion
    of the language, on unbounded integers; the limit CPython puts on the
    number of digits is added in [CPython.int_of_text] and [CPython.str]
    below. *)
Definition int_of_text (s : string) : result Z :=
  let body := rstrip (lstrip s) in
  let '(neg, digits) :=
    match body with
    | String "-" r => (true, r)
    | String "+" r => (false, r)
    | _ => (false, body)
    end in
  match int_digits false 0 digits with
  | Some n => Ok (if neg : bool then - Z.of_N n else Z.of_N n)
  | None => Raise ValueError
  end.

(** Before it parses a [str], [int] turns the white space outside ASCII
    into spaces and the decimal digits outside ASCII into those of ASCII.
    A character of a [string] is a code point below 256: there the white
    space outside ASCII is U+0085 and U+00A0, and there is no such digit.
    Text with characters from 256 on is outside the model. *)
Definition is_unicode_space (c : ascii) : bool :=
  bool_decide (c = "133"%char ∨ c = "160"%char).

Fixpoint space_to_ascii (s : string) : string :=
  match s with
  | EmptyString => EmptyString
  | String c s' =>
      String (if is_unicode_space c then " "%char else c) (space_to_ascii s')
  end.

(** [int(v)]. *)
Definition int (v : value) : result Z :=
  match v with
  | VStr s => int_of_text (space_to_ascii s)
  | VBytes s => int_of_text s
  | VInt n => Ok n
  | VNone | VDate _ | VNaN => Raise TypeError
  end.

(** [v[n:]]: only sequences can be sliced. *)
Definition slice_from (v : value) (n : nat) : result value :=
  match v with
  | VStr s => Ok (VStr (drop_str n s))
  | VBytes s => Ok (VBytes (drop_str n s))
  | VNone | VInt _ | VDate _ | VNaN => Raise TypeError
  end.

(** [max(l)] on a list of integers. *)
Definition max (l : list Z) : result Z :=
  match l with
  | [] => Raise ValueError
  | x :: l' => Ok (foldl Z.max x l')
  end.

End Py.

(** ** [generate_id] *)

(** The list comprehension [int(item['ID'][len(prefix):]) for item in ...]
    on one record. *)
Definition id_suffix (prefix : string) (it : item) : result Z :=
  v ← getitem it "ID";
  s ← Py.slice_from v (String.length prefix);
  Py.int s.

(** Lines 17-22, with the conversions of the language;
    [generate_id_with] below is the same function under the limit CPython
    puts on these conversions, and [generate_id] is [generate_id_with 0]. *)
Definition generate_id (prefix : string) (current_list : list item) : result string :=
  match current_list with
  | [] => Ok (prefix +:+ "001")
  | _ =>
      ids ← mapM (id_suffix prefix) current_list;
      last_id ← Py.max ids;
      Ok (prefix +:+ Py.zfill 3 (Py.str (last_id + 1)))
  end.

(** ** The limit on conversions between [int] and [str] *)

(** Since version 3.11 CPython refuses to convert between [int] and a
    decimal string of more than [sys.get_int_max_str_digits()] digits, 4300
    by default, and raises [ValueError]; setting the limit to 0 lifts it
    (the other values that can be set are those from 640 on).  The
    functions of [Py] are the conversions with the limit lifted; those
    below take the limit as their first argument. *)
Module CPython.

Definition default_max_str_digits : nat := 4300.

(** A count of [digits] is over the limit. *)
Definition exceeds (maxdigits digits : nat) : bool :=
  (0 <? maxdigits)%nat && (maxdigits <? digits)%nat.

(** The number of decimal digits in a string. *)
Fixpoint digit_count (s : string) : nat :=
  match s with
  | EmptyString => 0
  | String c s' =>
      (match Py.digit_val c with Some _ => 1 | None => 0 end + digit_count s')%nat
  end.

(** [int(s)] on text: a literal with too many digits (leading zeros
    count, underscores do not) is refused with the same exception as a
    malformed one. *)
Definition int_of_text (maxdigits : nat) (s : string) : result Z :=
  z ← Py.int_of_text s;
  if exceeds maxdigits (digit_count s) then Raise ValueError else Ok z.

Definition int (maxdigits : nat) (v : value) : result Z :=
  match v with
  | VStr s => int_of_text maxdigits (Py.space_to_ascii s)
  | VBytes s => int_of_text maxdigits s
  | VInt n => Ok n
  | VNone | VDate _ | VNaN => Raise TypeError
  end.

(** [str(z)]: the digits are counted without the sign. *)
Definition str (maxdigits : nat) (z : Z) : result string :=
  if exceeds maxdigits (String.length (Py.str (Z.abs z)))
  then Raise ValueError
  else Ok (Py.str z).

End CPython.

(** Lines 17-22 under the limit [maxdigits] of the interpreter: [int] in
    the list comprehension and [str] on the next number can refuse. *)
Definition id_suffix_with (maxdigits : nat) (prefix : string) (it : item) : result Z :=
  v ← getitem it "ID";
  s ← Py.slice_from v (String.length prefix);
  CPython.int maxdigits s.

Definition generate_id_with (maxdigits : nat) (prefix : string)
    (current_list : list item) : result string :=
  match current_list with
  | [] => Ok (prefix +:+ "001")
  | _ =>
      ids ← mapM (id_suffix_with maxdigits prefix) current_list;
      last_id ← Py.max ids;
      s ← CPython.str maxdigits (last_id + 1);
      Ok (prefix +:+ Py.zfill 3 s)
  end.

(** ** Session state and the [add_*] operations *)

(** [st.session_state]: the three stores. *)
Record session_state := Session {
  audit_engagements : list item;
  audit_findings : list item;
  corrective_actions : list item
}.

(** The state at the start of a session (lines 7-14). *)
Definition init : session_state := Session [] [] [].

(** What a call shows on the page. *)
Inductive message :=
  | Success (text : string)
  | Error (text : string).

(** One call: the value returned or the exception raised, the session
    state it leaves and the messages it shows. *)
Record outcome := Outcome {
  returned : result value;
  after : session_state;
  shown : list message
}.

Definition opt_str (o : option string) : value :=
  match o with Some s => VStr s | None => VNone end.

Definition opt_bytes (o : option string) : value :=
  match o with Some b => VBytes b | None => VNone end.

Definition add_audit_engagement
    (title department audit_type auditors auditees : string)
    (start_date end_date : Z)
    (audit_report_name audit_report_data : option string)
    (st : session_state) : outcome :=
  match generate_id "AE" (audit_engagements st) with
  | Raise e => Outcome (Raise e) st []
  | Ok engagement_id =>
      let record : item := list_to_map [
        ("ID", VStr engagement_id);
        ("Title", VStr title);
        ("Department", VStr department);
        ("Audit Type", VStr audit_type);
        ("Auditor(s)", VStr auditors);
        ("Auditee(s)", VStr auditees);
        ("Start Date", VDate start_date);
        ("End Date", VDate end_date);
        ("Status", VStr "Draft");
        ("Audit Report Name", opt_str audit_report_name);
        ("Audit Report Data", opt_bytes audit_report_data)] in
      Outcome (Ok VNone)
        (Session (audit_engagements st ++ [record]) (audit_findings st)
           (corrective_actions st))
        [Success ("Audit Engagement '" +:+ title +:+ "' created with ID: "
                  +:+ engagement_id)]
  end.

Definition add_audit_finding
    (audit_engagement_id category description risk_level root_cause
       recommendation : string)
    (evidence_name evidence_data : option string)
    (st : session_state) : outcome :=
  match generate_id "F" (audit_findings st) with
  | Raise e => Outcome (Raise e) st []
  | Ok finding_id =>
      let record : item := list_to_map [
        ("ID", VStr finding_id);
        ("Audit Engagement ID", VStr audit_engagement_id);
        ("Category", VStr category);
        ("Description", VStr description);
        ("Evidence Name", opt_str evidence_name);
        ("Evidence Data", opt_bytes evidence_data);
        ("Risk Level", VStr risk_level);
        ("Root Cause", VStr root_cause);
        ("Recommendation", VStr recommendation);
        ("Status", VStr "Open")] in
      Outcome (Ok (VStr finding_id))
        (Session (audit_engagements st) (audit_findings st ++ [record])
           (corrective_actions st))
        [Success ("Audit Finding '" +:+ finding_id +:+ "' added to Engagement "
                  +:+ audit_engagement_id)]
  end.

Definition add_corrective_action
    (finding_id responsible_person action_description : string)
    (due_date : Z)
    (follow_up_evidence_name follow_up_evidence_data : option string)
    (st : session_state) : outcome :=
  match generate_id "CA" (corrective_actions st) with
  | Raise e => Outcome (Raise e) st []
  | Ok action_id =>
      let record : item := list_to_map [
        ("ID", VStr action_id);
        ("Finding ID", VStr finding_id);
        ("Responsible Person", VStr responsible_person);
        ("Action Description", VStr action_description);
        ("Due Date", VDate due_date);
        ("Status", VStr "Pending");
        ("Follow-Up Evidence Name", opt_str follow_up_evidence_name);
        ("Follow-Up Evidence Data", opt_bytes follow_up_evidence_data)] in
      Outcome (Ok VNone)
        (Session (audit_engagements st) (audit_findings st)
           (corrective_actions st ++ [record]))
        [Success ("Corrective Action '" +:+ action_id +:+ "' added for Finding "
                  +:+ finding_id)]
  end.

(** ** The submit handlers of the three forms *)

(** An uploaded file: its name and its bytes. *)
Record uploaded_file := Upload { name : string; getvalue : string }.

(** Truth value of a [str]. *)
Definition truthy (s : string) : bool := negb (bool_decide (s = "")).

(** Truth value of a selection that is a [str] or [None]. *)
Definition truthy_opt (o : option string) : bool :=
  match o with Some s => truthy s | None => false end.

(** Lines 146-153, the body of [if submitted_ae:]. *)
Definition submit_engagement_form
    (ae_title ae_department ae_audit_type ae_auditors ae_auditees : string)
    (ae_start_date ae_end_date : Z) (ae_report_file : option uploaded_file)
    (st : session_state) : outcome :=
  let report_name := name <$> ae_report_file in
  let report_data := getvalue <$> ae_report_file in
  if truthy ae_title && truthy ae_department && truthy ae_auditors
  then add_audit_engagement ae_title ae_department ae_audit_type ae_auditors
         ae_auditees ae_start_date ae_end_date report_name report_data st
  else Outcome (Ok VNone) st
         [Error "Please fill in all required fields (Title, Department, Auditors)."].

(** Lines 202-209, the body of [if submitted_find:].  [selected_engagement_id]
    is the key of [available_engagements] behind the select box, or [None]. *)
Definition submit_finding_form
    (selected_engagement_id : option string)
    (find_category find_description : string)
    (find_evidence_file : option uploaded_file)
    (find_risk_level find_root_cause find_recommendation : string)
    (st : session_state) : outcome :=
  let evidence_name := name <$> find_evidence_file in
  let evidence_data := getvalue <$> find_evidence_file in
  if truthy_opt selected_engagement_id && truthy find_description
     && truthy find_risk_level
  then add_audit_finding (default "" selected_engagement_id) find_category
         find_description find_risk_level find_root_cause find_recommendation
         evidence_name evidence_data st
  else Outcome (Ok VNone) st
         [Error "Please fill in all required fields (Engagement, Description, Risk Level)."].

(** Lines 256-263, the body of [if submitted_ca:].  [ca_due_date] is the
    value of the date input: a [date], which is always true, or [None]. *)
Definition submit_corrective_action_form
    (selected_finding_id : option string)
    (ca_responsible_person ca_description : string) (ca_due_date : option Z)
    (ca_follow_up_file : option uploaded_file)
    (st : session_state) : outcome :=
  let follow_up_name := name <$> ca_follow_up_file in
  let follow_up_data := getvalue <$> ca_follow_up_file in
  match ca_due_date with
  | Some due_date =>
      if truthy_opt selected_finding_id && truthy ca_responsible_person
         && truthy ca_description
      then add_corrective_action (default "" selected_finding_id)
             ca_responsible_person ca_description due_date follow_up_name
             follow_up_data st
      else Outcome (Ok VNone) st
             [Error "Please fill in all required fields (Finding, Responsible Person, Description, Due Date)."]
  | None =>
      Outcome (Ok VNone) st
        [Error "Please fill in all required fields (Finding, Responsible Person, Description, Due Date)."]
  end.

(** ** The status-update loops *)

Inductive store := Engagements | Findings | Actions.

#[global] Instance store_eq_dec : EqDecision store.
Proof. solve_decision. Defined.

Definition get_store (k : store) (st : session_state) : list item :=
  match k with
  | Engagements => audit_engagements st
  | Findings => audit_findings st
  | Actions => corrective_actions st
  end.

Definition set_store (k : store) (l : list item) (st : session_state) : session_state :=
  match k with
  | Engagements => Session l (audit_findings st) (corrective_actions st)
  | Findings => Session (audit_engagements st) l (corrective_actions st)
  | Actions => Session (audit_engagements st) (audit_findings st) l
  end.

Definition prefix_of (k : store) : string :=
  match k with Engagements => "AE" | Findings => "F" | Actions => "CA" end.

(** [for ae in store: if ae['ID'] == selected: ae['Status'] = new_status; ...;
    st.rerun(); break].  The result is the store after the loop and whether
    the body of the [if] ran; [st.rerun()] ends the script run, as the
    [break] after it would end the loop. *)
Fixpoint update_loop (selected new_status : string) (l : list item)
    : result (list item * bool) :=
  match l with
  | [] => Ok ([], false)
  | ae :: rest =>
      id ← getitem ae "ID";
      if decide (id = VStr selected)
      then Ok (<["Status" := VStr new_status]> ae :: rest, true)
      else '(rest', hit) ← update_loop selected new_status rest;
           Ok (ae :: rest', hit)
  end.

Definition update_label (k : store) : string :=
  match k with
  | Engagements => "Engagement"
  | Findings => "Finding"
  | Actions => "Action"
  end.

(** The three loops (lines 168-173, 224-229 and 278-283) differ in the store
    they walk and in the word of the message only. *)
Definition update_status (k : store) (selected new_status : string)
    (st : session_state) : outcome :=
  match update_loop selected new_status (get_store k st) with
  | Raise e => Outcome (Raise e) st []
  | Ok (l, hit) =>
      Outcome (Ok VNone) (set_store k l st)
        (if hit : bool
         then [Success ("Status of " +:+ update_label k +:+ " " +:+ selected
                        +:+ " updated to " +:+ new_status)]
         else [])
  end.

(** ** Sequences of operations *)

Inductive op :=
  | AddEngagement (title department audit_type auditors auditees : string)
      (start_date end_date : Z) (audit_report_name audit_report_data : option string)
  | AddFinding (audit_engagement_id category description risk_level root_cause
      recommendation : string) (evidence_name evidence_data : option string)
  | AddAction (finding_id responsible_person action_description : string)
      (due_date : Z) (follow_up_evidence_name follow_up_evidence_data : option string)
  | UpdateStatus (k : store) (selected new_status : string).

Definition run_op (o : op) (st : session_state) : outcome :=
  match o with
  | AddEngagement t d ty a1 a2 sd ed rn rd =>
      add_audit_engagement t d ty a1 a2 sd ed rn rd st
  | AddFinding e c d r rc rec en ed => add_audit_finding e c d r rc rec en ed st
  | AddAction f p d dd en ed => add_corrective_action f p d dd en ed st
  | UpdateStatus k sel new => update_status k sel new st
  end.

(** The store an operation creates a record in, if it is a creation. *)
Definition creates (o : op) : option store :=
  match o with
  | AddEngagement _ _ _ _ _ _ _ _ _ => Some Engagements
  | AddFinding _ _ _ _ _ _ _ _ => Some Findings
  | AddAction _ _ _ _ _ _ => Some Actions
  | UpdateStatus _ _ _ => None
  end.

(** Operations in sequence; an exception ends the run. *)
Fixpoint run_ops (ops : list op) (st : session_state) : result session_state :=
  match ops with
  | [] => Ok st
  | o :: ops' =>
      let out := run_op o st in
      match returned out with
      | Ok _ => run_ops ops' (after out)
      | Raise e => Raise e
      end
  end.

Definition reachable (st : session_state) : Prop :=
  ∃ ops, run_ops ops init = Ok st.

(** ** Dashboard *)

(** [sum(1 for x in l if p(x))]. *)
Fixpoint count_where (p : item → result bool) (l : list item) : result Z :=
  match l with
  | [] => Ok 0
  | x :: l' =>
      b ← p x;
      n ← count_where p l';
      Ok (if b : bool then 1 + n else n)
  end.

(** [x['Status'] == status]. *)
Definition status_is (status : string) (x : item) : result bool :=
  v ← getitem x "Status";
  Ok (bool_decide (v = VStr status)).

Definition total_audits (st : session_state) : Z :=
  Z.of_nat (length (audit_engagements st)).

Definition completed_audits (st : session_state) : result Z :=
  count_where (status_is "Completed") (audit_engagements st).

Definition total_findings (st : session_state) : Z :=
  Z.of_nat (length (audit_findings st)).

Definition closed_findings (st : session_state) : result Z :=
  count_where (status_is "Closed") (audit_findings st).

(** A Python number: the [percent_closed] variable holds a [float] or the
    [int] 0. *)
Inductive number :=
  | Int (z : Z)
  | Float (f : float).

(** [float(z)], exact for the integers below 2^53 in magnitude. *)
Definition float_of_int (z : Z) : float :=
  if z <? 0 then PrimFloat.opp (PrimFloat.of_uint63 (Uint63.of_Z (- z)))
  else PrimFloat.of_uint63 (Uint63.of_Z z).

(** [a / b] on two [int]s: for operands below 2^53 in magnitude both convert
    exactly and the result is the binary64 quotient.  (For larger operands
    CPython rounds the exact quotient once; no list is that long.) *)
Definition true_div (a b : Z) : result float :=
  if b =? 0 then Raise ZeroDivisionError
  else Ok (PrimFloat.div (float_of_int a) (float_of_int b)).

Definition percent_closed (st : session_state) : result number :=
  closed ← closed_findings st;
  if 0 <? total_findings st
  then q ← true_div closed (total_findings st);
       Ok (Float (PrimFloat.mul q (float_of_int 100)))
  else Ok (Int 0).

(** [num / den] rounded to the nearest integer, ties to even ([den > 0]). *)
Definition round_half_even (num den : Z) : Z :=
  let q := num / den in
  let r := num mod den in
  if 2 * r <? den then q
  else if den <? 2 * r then q + 1
  else if Z.even q then q else q + 1.

Definition fixed1 (negative : bool) (tenths : Z) : string :=
  (if negative then "-" else "") +:+ Py.str (tenths / 10) +:+ "."
    +:+ Py.str (tenths mod 10).

(** [f"{x:.1f}"]: the decimal with one fractional digit nearest to the exact
    value of [x], ties to even. *)
Definition format_1f (x : number) : string :=
  match x with
  | Int z => fixed1 (z <? 0) (10 * Z.abs z)
  | Float f =>
      match Prim2SF f with
      | S754_zero s => fixed1 s 0
      | S754_infinity s => if s then "-inf" else "inf"
      | S754_nan => "nan"
      | S754_finite s m e =>
          fixed1 s (if 0 <=? e then 10 * Z.pos m * 2 ^ e
                    else round_half_even (10 * Z.pos m) (2 ^ (- e)))
      end
  end.

(** The value shown by the "% Findings Closed" metric. *)
Definition percent_closed_metric (st : session_state) : result string :=
  p ← percent_closed st;
  Ok (format_1f p +:+ "%").

(** [x < today] where [today] is a [date]: only a [date] compares. *)
Definition date_lt (x : value) (today : Z) : result bool :=
  match x with
  | VDate d => Ok (d <? today)
  | VNone | VStr _ | VInt _ | VBytes _ | VNaN => Raise TypeError
  end.

(** Line 105; [today] is [datetime.now().date()] at the time of the query.
    The [and] reads the due date only when the status test holds. *)
Definition overdue_actions (today : Z) (st : session_state) : result Z :=
  count_where
    (λ ca,
       status ← getitem ca "Status";
       if bool_decide (status ∉ [VStr "Verified"; VStr "Closed"])
       then due ← getitem ca "Due Date"; date_lt due today
       else Ok false)
    (corrective_actions st).

(** A pandas [DataFrame]: its column labels, its index and its rows (each
    row maps every column label to a cell).  The order of the columns is
    not kept. *)
Record DataFrame := Frame {
  columns : gset string;
  index : list value;
  rows : list item
}.

(** [pd.DataFrame(records)]: the columns are the keys of all the dicts,
    a cell a dict has no key for is [NaN], the index is [0..n-1].  The
    other cells hold the values of the dicts: the records of the program
    hold text, bytes, dates and [None], which pandas keeps as they are
    (the conversions it applies to columns of numbers are not modelled). *)
Definition DataFrame_of (records : list item) : DataFrame :=
  let cols : gset string := ⋃ (dom <$> records) in
  Frame cols
    ((λ i, VInt (Z.of_nat i)) <$> seq 0 (length records))
    ((λ r, r ∪ gset_to_gmap VNaN cols) <$> records).

(** [df.tail(n)]. *)
Definition tail (n : nat) (df : DataFrame) : DataFrame :=
  Frame (columns df)
    (drop (length (index df) - n) (index df))
    (drop (length (rows df) - n) (rows df)).

(** [df.set_index(k)]. *)
Definition set_index (k : string) (df : DataFrame) : result DataFrame :=
  if decide (k ∈ columns df)
  then Ok (Frame (columns df ∖ {[k]})
             ((λ r, default VNaN (r !! k)) <$> rows df)
             (delete k <$> rows df))
  else Raise KeyError.

(** [df.drop(columns=ks, errors='ignore')]. *)
Definition drop_columns (ks : list string) (df : DataFrame) : DataFrame :=
  Frame (columns df ∖ list_to_set ks) (index df)
    ((λ r, foldr delete r ks) <$> rows df).

(** What one block of the page shows: a table or a notice. *)
Inductive view :=
  | Dataframe (df : DataFrame)
  | Info (text : string).

(** Lines 112-117, "Latest Audit Engagements". *)
Definition recent_engagements (st : session_state) : result view :=
  match audit_engagements st with
  | [] => Ok (Info "No audit engagements created yet.")
  | l => Dataframe <$> set_index "ID" (tail 5 (DataFrame_of l))
  end.


(** Lines 157-160, the table of the "View All Engagements" tab. *)
Definition all_engagements (st : session_state) : result view :=
  match audit_engagements st with
  | [] => Ok (Info "No audit engagements created yet.")
  | l =>
      let df_engagements_display :=
        drop_columns ["Audit Report Data"] (DataFrame_of l) in
      Dataframe <$> set_index "ID" df_engagements_display
  end.


(** ** Numeric suffixes, as the specification speaks of them *)

Fixpoint string_forall (P : ascii → bool) (s : string) : bool :=
  match s with
  | EmptyString => true
  | String c s' => P c && string_forall P s'
  end.

Definition is_digit (c : ascii) : bool :=
  match Ascii.is_nat c with Some _ => true | None => false end.

(** A character that is not white space. *)
Definition solid (c : ascii) : bool := negb (Ascii.is_space c).

(** A numeric suffix: one or more decimal digits. *)
Definition numeric (s : string) : Prop :=
  s ≠ "" ∧ string_forall is_digit s = true.

(** The number a string of digits denotes, reading on from [acc]. *)
Fixpoint numeral_from (acc : N) (s : string) : N :=
  match s with
  | EmptyString => acc
  | String c s' => numeral_from (10 * acc + default 0%N (Py.digit_val c))%N s'
  end.

Definition numeral (s : string) : Z := Z.of_N (numeral_from 0 s).

(** [n] in decimal, padded with zeros on the left up to [width] characters. *)
Definition zero_padded (width : nat) (n : Z) : string :=
  Py.repeat0 (width - String.length (Py.str n)) +:+ Py.str n.

(** [m] is the greatest element of [l]. *)
Definition is_max (m : Z) (l : list Z) : Prop :=
  m ∈ l ∧ ∀ x, x ∈ l → x ≤ m.

(** The ID column of a store. *)
Definition ids (l : list item) : list (option value) := (λ it, it !! "ID") <$> l.

(** The invariant of a store: IDs pairwise distinct, numeric suffixes
    strictly increasing in insertion order. *)
Definition unique_increasing (prefix : string) (l : list item) : Prop :=
  NoDup (ids l) ∧
  ∃ ns, mapM (id_suffix prefix) l = Ok ns ∧ StronglySorted Z.lt ns.

Definition store_invariant (st : session_state) : Prop :=
  ∀ k, unique_increasing (prefix_of k) (get_store k st).

(** The IDs of a store are prefix001, prefix002, ... in insertion order. *)
Definition numbered (prefix : string) (l : list item) : Prop :=
  ids l = (λ i, Some (VStr (prefix +:+ zero_padded 3 (Z.of_nat i))))
            <$> seq 1 (length l).

(** The number of creations in store [k] among [ops]. *)
Definition creations (k : store) (ops : list op) : nat :=
  length (filter (λ o, creates o = Some k) ops).

(** The status a new record starts in. *)
Definition initial_status (k : store) : string :=
  match k with
  | Engagements => "Draft"
  | Findings => "Open"
  | Actions => "Pending"
  end.

(** Every record of [l] has an ID, and none has the ID [selected]. *)
Definition others (selected : string) (l : list item) : Prop :=
  Forall (λ it : item, ∃ v, it !! "ID" = Some v ∧ v ≠ VStr selected) l.

(** A record with a status, as every record of the three stores is. *)
Definition has_status (it : item) : Prop := ∃ s, it !! "Status" = Some (VStr s).

(** A corrective action: a status and a due date that is a date. *)
Definition action_record (ca : item) : Prop :=
  has_status ca ∧ ∃ d, ca !! "Due Date" = Some (VDate d).

Definition well_formed (st : session_state) : Prop :=
  Forall has_status (audit_engagements st) ∧
  Forall has_status (audit_findings st) ∧
  Forall action_record (corrective_actions st).

(** Overdue: the status is neither Verified nor Closed and the due date is
    strictly before [today]. *)
Definition overdue (today : Z) (ca : item) : bool :=
  match ca !! "Status", ca !! "Due Date" with
  | Some status, Some (VDate due) =>
      negb (bool_decide (status = VStr "Verified"))
      && negb (bool_decide (status = VStr "Closed"))
      && (due <? today)
  | _, _ => false
  end.

(** A finding whose status is Closed. *)
Definition is_closed (f : item) : bool :=
  bool_decide (f !! "Status" = Some (VStr "Closed")).

(** The number of closed findings. *)
Definition closed_count (st : session_state) : Z :=
  Z.of_nat (length (List.filter is_closed (audit_findings st))).

(** A number that is not an infinity or a NaN. *)
Definition finite (x : number) : Prop :=
  match x with
  | Int _ => True
  | Float f =>
      match Prim2SF f with
      | S754_zero _ | S754_finite _ _ _ => True
      | S754_infinity _ | S754_nan => False
      end
  end.

(** A decimal with exactly one digit after the point. *)
Definition one_decimal (s : string) : Prop :=
  ∃ sign whole d,
    s = sign +:+ whole +:+ String "." (String d "") ∧
    (sign = "" ∨ sign = "-") ∧ numeric whole ∧ is_digit d = true.

(** A session with one engagement, created with an uploaded report. *)
Definition report_session : session_state :=
  after (add_audit_engagement "Annual IT Security Audit" "IT" "IT" "John Doe"
           "Emily White" 738000 738030 (Some "report.pdf") (Some "%PDF-1.7")
           init).

(** The table a view shows; the empty table when it shows none. *)
Definition table_of (v : result view) : DataFrame :=
  match v with
  | Ok (Dataframe df) => df
  | Ok (Info _) | Raise _ => Frame ∅ [] []
  end.

(** A short run: an engagement, two findings, the first one then closed. *)
Definition example_run : list op :=
  [AddEngagement "Annual IT Security Audit" "IT" "IT" "John Doe" "Emily White"
     738000 738030 None None;
   AddFinding "AE001" "Major" "No backups" "High" "" "" None None;
   AddFinding "AE001" "Minor" "Stale accounts" "Low" "" "" None None;
   UpdateStatus Findings "F001" "Closed"].

Definition rec_of_id (id : string) : item := {[ "ID" := VStr id ]}.

(** ** Decimal numerals, read without the functions of the program *)

(** The digit a character stands for, by its code. *)
Definition digit_of (c : ascii) : option N :=
  let code := N_of_ascii c in
  if (48 <=? code)%N && (code <=? 57)%N then Some (code - 48)%N else None.

Fixpoint decimal_from (acc : N) (s : string) : option N :=
  match s with
  | EmptyString => Some acc
  | String c s' => d ← digit_of c; decimal_from (10 * acc + d)%N s'
  end.

(** [s] is a decimal numeral of [n]: one or more digits, leading zeros
    allowed. *)
Definition decimal (s : string) (n : Z) : Prop :=
  s ≠ "" ∧ 0 ≤ n ∧ decimal_from 0 s = Some (Z.to_N n).

(** [s] is [n] in decimal, zero-padded to width 3: a numeral of [n] of
    three characters, or of more and then without a leading zero. *)
Definition padded3 (s : string) (n : Z) : Prop :=
  decimal s n ∧ (3 ≤ String.length s)%nat ∧
  ((3 < String.length s)%nat → ∀ s', s ≠ String "0" s').

(** The IDs of the store are [prefix] followed by the numerals [sfx], which
    come with the numbers they denote. *)
Definition has_suffixes (prefix : string) (l : list item)
    (sfx : list (string * Z)) : Prop :=
  Forall2 (λ (it : item) sn,
             it !! "ID" = Some (VStr (prefix +:+ sn.1)) ∧ decimal sn.1 sn.2)
    l sfx.

(** The limit allows to read the numeral [sn.1] of [sn.2] and to print the
    next number: it is lifted, or the numeral has no more digits than the
    limit and the next number is below 10 to the power of the limit. *)
Definition allowed (maxdigits : nat) (sn : string * Z) : Prop :=
  maxdigits = 0%nat ∨
  ((String.length sn.1 ≤ maxdigits)%nat ∧ sn.2 + 1 < 10 ^ Z.of_nat maxdigits).

(** A store with one ID: AE followed by 4301 zeros. *)
Definition long_id_store : list item := [rec_of_id ("AE" +:+ Py.repeat0 4301)].


(** Two results of a list comprehension that agree up to the order of the
    elements read. *)
Definition same_reads (r r' : result (list Z)) : Prop :=
  match r, r' with
  | Ok ks, Ok ks' => ks ≡ₚ ks'
  | Raise e, Raise e' => e = e'
  | _, _ => False
  end.

(** ** Further notions *)

(** The store a status update leaves: the store after the loop, or the
    store as it was when the loop raised (nothing is written before the
    record with the selected ID is found). *)
Definition store_after (selected new_status : string) (l : list item) : list item :=
  match update_loop selected new_status l with
  | Ok (l', _) => l'
  | Raise _ => l
  end.

(** A finding to create, for the examples. *)
Definition example_finding : op :=
  AddFinding "AE001" "Major" "No backups" "High" "" "" None None.

(** The state the short run ends in. *)
Definition example_state : session_state :=
  match run_ops example_run init with
  | Ok st => st
  | Raise _ => init
  end.

(** Two records that differ at most in their status. *)
Definition same_but_status (a b : item) : Prop :=
  ∀ field, field ≠ "Status" → a !! field = b !! field.

(** The keys of the record literal of each [add_*] function. *)
Definition keys_of (k : store) : gset string :=
  match k with
  | Engagements =>
      list_to_set ["ID"; "Title"; "Department"; "Audit Type"; "Auditor(s)";
                   "Auditee(s)"; "Start Date"; "End Date"; "Status";
                   "Audit Report Name"; "Audit Report Data"]
  | Findings =>
      list_to_set ["ID"; "Audit Engagement ID"; "Category"; "Description";
                   "Evidence Name"; "Evidence Data"; "Risk Level"; "Root Cause";
                   "Recommendation"; "Status"]
  | Actions =>
      list_to_set ["ID"; "Finding ID"; "Responsible Person";
                   "Action Description"; "Due Date"; "Status";
                   "Follow-Up Evidence Name"; "Follow-Up Evidence Data"]
  end.

(** Every record of [children] names under [field] the ID of a record of
    [parents]. *)
Definition linked (field : string) (children parents : list item) : Prop :=
  ∀ c : item, c ∈ children → ∃ v, c !! field = Some v ∧ Some v ∈ ids parents.

(** Findings name an engagement, corrective actions name a finding. *)
Definition well_linked (st : session_state) : Prop :=
  linked "Audit Engagement ID" (audit_findings st) (audit_engagements st) ∧
  linked "Finding ID" (corrective_actions st) (audit_findings st).

(** The parent a creation refers to is in its store. *)
Definition parent_exists (o : op) (st : session_state) : Prop :=
  match o with
  | AddFinding e _ _ _ _ _ _ _ => Some (VStr e) ∈ ids (audit_engagements st)
  | AddAction f _ _ _ _ _ => Some (VStr f) ∈ ids (audit_findings st)
  | AddEngagement _ _ _ _ _ _ _ _ _ | UpdateStatus _ _ _ => True
  end.


(** A corrective action that is done: its status is Verified or Closed. *)
Definition done_action (ca : item) : Prop :=
  ca !! "Status" = Some (VStr "Verified") ∨ ca !! "Status" = Some (VStr "Closed").


(** * Properties *)

(** ** Strings *)

Section strings.
Implicit Types (s t : string) (c : ascii) (n : N).

Lemma app_cons c s t : String c s +:+ t = String c (s +:+ t).
Proof. reflexivity. Qed.

Lemma app_empty_l s : "" +:+ s = s.
Proof. reflexivity. Qed.

Lemma app_empty_r s : s +:+ "" = s.
Proof. induction s as [|c s IH]; [done|]. by rewrite app_cons, IH. Qed.

Lemma app_assoc' s t u : (s +:+ t) +:+ u = s +:+ (t +:+ u).
Proof. induction s as [|c s IH]; [done|]. by rewrite !app_cons, IH. Qed.

Lemma string_length_app s t :
  String.length (s +:+ t) = (String.length s + String.length t)%nat.
Proof. induction s as [|c s IH]; [done|]. rewrite app_cons. simpl. by rewrite IH. Qed.

Lemma drop_str_app s t : Py.drop_str (String.length s) (s +:+ t) = t.
Proof. induction s as [|c s IH]; [by destruct t|]. by rewrite app_cons. Qed.

Lemma string_forall_app P s t :
  string_forall P (s +:+ t) = string_forall P s && string_forall P t.
Proof.
  induction s as [|c s IH]; [done|].
  rewrite app_cons. simpl. rewrite IH. by destruct (P c).
Qed.

Lemma is_digit_val c : is_digit c = true → ∃ d, Py.digit_val c = Some d ∧ (d < 10)%N.
Proof.
  unfold is_digit, Py.digit_val.
  destruct c as [[] [] [] [] [] [] [] []]; simpl; try done;
    intros _; eexists; (split; [reflexivity|lia]).
Qed.

Lemma is_digit_not_space c : is_digit c = true → Ascii.is_space c = false.
Proof. by destruct c as [[] [] [] [] [] [] [] []]. Qed.

Lemma is_digit_not_sign c : is_digit c = true → c ≠ "-"%char ∧ c ≠ "+"%char.
Proof. by destruct c as [[] [] [] [] [] [] [] []]. Qed.

Lemma digit_char_val n :
  (n < 10)%N → Py.digit_val (Py.digit_char n) = Some n ∧ is_digit (Py.digit_char n) = true.
Proof.
  intros Hn. rewrite <-(N2Nat.id n). assert (N.to_nat n < 10)%nat as H by lia.
  revert H. generalize (N.to_nat n). intros k Hk.
  do 10 (destruct k as [|k]; [done|]). lia.
Qed.

Lemma lstrip_solid s : string_forall solid s = true → Py.lstrip s = s.
Proof.
  destruct s as [|c s]; [done|]. simpl. unfold solid.
  by destruct (Ascii.is_space c).
Qed.

Lemma rstrip_solid s : string_forall solid s = true → Py.rstrip s = s.
Proof.
  induction s as [|c s IH]; [done|]. simpl. unfold solid at 1.
  intros [Hc Hs]%andb_true_iff. rewrite (IH Hs).
  destruct s; [|done]. by destruct (Ascii.is_space c).
Qed.

Lemma digits_solid s : string_forall is_digit s = true → string_forall solid s = true.
Proof.
  induction s as [|c s IH]; [done|]. simpl.
  intros [Hc Hs]%andb_true_iff. unfold solid at 1.
  by rewrite (is_digit_not_space c Hc), (IH Hs).
Qed.

Lemma is_digit_not_unicode_space c :
  is_digit c = true → Py.is_unicode_space c = false.
Proof. by destruct c as [[] [] [] [] [] [] [] []]. Qed.

Lemma space_to_ascii_digits s :
  string_forall is_digit s = true → Py.space_to_ascii s = s.
Proof.
  induction s as [|c s IH]; [done|]. simpl.
  intros [Hc Hs]%andb_true_iff.
  by rewrite (is_digit_not_unicode_space c Hc), (IH Hs).
Qed.

(** The literal parser on a string of digits. *)
Lemma int_digits_numeral s (b : bool) acc :
  string_forall is_digit s = true → s ≠ "" ∨ b = true →
  Py.int_digits b acc s = Some (numeral_from acc s).
Proof.
  revert b acc. induction s as [|c s IH]; intros b acc Hs Hne.
  - destruct Hne as [?| ->]; done.
  - simpl in *. apply andb_true_iff in Hs as [Hc Hs].
    destruct (is_digit_val c Hc) as (d & -> & _). simpl.
    apply IH; auto.
Qed.

Lemma int_of_text_numeric s :
  numeric s → Py.int_of_text s = Ok (numeral s).
Proof.
  intros [Hne Hs]. unfold Py.int_of_text.
  rewrite (lstrip_solid s), (rstrip_solid s) by auto using digits_solid.
  destruct s as [|c s]; [done|].
  simpl in Hs. apply andb_true_iff in Hs as [Hc Hs].
  destruct (is_digit_not_sign c Hc) as [Hm Hp].
  assert (Py.int_digits false 0 (String c s) = Some (numeral_from 0 (String c s))) as Hd.
  { apply int_digits_numeral; [|by left]. simpl. by rewrite Hc, Hs. }
  destruct c as [[] [] [] [] [] [] [] []]; try done; by rewrite Hd.
Qed.

Lemma int_of_text_negative s :
  numeric s → Py.int_of_text (String "-" s) = Ok (- numeral s).
Proof.
  intros [Hne Hs]. unfold Py.int_of_text.
  assert (string_forall solid (String "-" s) = true) as Hsolid.
  { simpl. by apply digits_solid. }
  rewrite (lstrip_solid _ Hsolid), (rstrip_solid _ Hsolid).
  by rewrite (int_digits_numeral s false 0 Hs (or_introl Hne)).
Qed.

Lemma numeral_from_app acc s t :
  numeral_from acc (s +:+ t) = numeral_from (numeral_from acc s) t.
Proof.
  revert acc. induction s as [|c s IH]; intros acc; [done|].
  rewrite app_cons. simpl. apply IH.
Qed.

Lemma numeral_from_repeat0 k s : numeral_from 0 (Py.repeat0 k +:+ s) = numeral_from 0 s.
Proof. induction k as [|k IH]; [done|]. exact IH. Qed.

Lemma repeat0_digits k : string_forall is_digit (Py.repeat0 k) = true.
Proof. by induction k. Qed.

Lemma length_repeat0 k : String.length (Py.repeat0 k) = k.
Proof. induction k; simpl; auto. Qed.

(** [str] on a natural number. *)
Lemma str_go_app fuel n acc : Py.str_go fuel n acc = Py.str_go fuel n "" +:+ acc.
Proof.
  revert n acc. induction fuel as [|fuel IH]; intros n acc; [done|].
  simpl. destruct (n <? 10)%N; [done|].
  rewrite IH, (IH _ (String _ "")). by rewrite app_assoc'.
Qed.

Lemma str_go_S fuel n acc :
  Py.str_go (S fuel) n acc =
    if (n <? 10)%N then String (Py.digit_char n) acc
    else Py.str_go fuel (n / 10)%N (String (Py.digit_char (n mod 10)%N) acc).
Proof. reflexivity. Qed.

Lemma str_go_spec fuel n :
  (n < 2 ^ N.of_nat (S fuel))%N →
  let s := Py.str_go (S fuel) n "" in
  numeral_from 0 s = n ∧ string_forall is_digit s = true ∧ s ≠ "".
Proof.
  revert n. induction fuel as [|fuel IH]; intros n Hn;
    cbv zeta; rewrite str_go_S; destruct (N.ltb_spec n 10) as [Hlt|Hge].
  - destruct (digit_char_val n Hlt) as [Hv Hd].
    simpl. rewrite Hv, Hd. simpl. split; [lia|done].
  - simpl in Hn. lia.
  - destruct (digit_char_val n Hlt) as [Hv Hd].
    simpl. rewrite Hv, Hd. simpl. split; [lia|done].
  - rewrite str_go_app.
    assert (n / 10 < 2 ^ N.of_nat (S fuel))%N as Hq.
    { rewrite (Nat2N.inj_succ (S fuel)), N.pow_succ_r' in Hn.
      apply N.Div0.div_lt_upper_bound. lia. }
    destruct (IH _ Hq) as (Hv & Hd & Hne).
    assert (n mod 10 < 10)%N as Hm by (apply N.mod_lt; lia).
    destruct (digit_char_val _ Hm) as [Hv' Hd'].
    rewrite numeral_from_app, Hv, string_forall_app, Hd.
    cbn [numeral_from string_forall]. rewrite Hv', Hd'. simpl default.
    split; [|split; [done|]].
    + pose proof (N.div_mod n 10). lia.
    + destruct (Py.str_go (S fuel) (n / 10) "") eqn:E; [done|].
      by rewrite app_cons.
Qed.

Lemma str_N_spec n :
  numeral (Py.str_N n) = Z.of_N n ∧ numeric (Py.str_N n).
Proof.
  unfold Py.str_N, numeral.
  destruct (str_go_spec (N.to_nat (N.log2 n)) n) as (Hv & Hd & Hne).
  - rewrite Nat2N.inj_succ, N2Nat.id.
    destruct n as [|p]; [done|]. apply N.log2_spec. lia.
  - rewrite Hv. by repeat split.
Qed.

Lemma str_nonneg z :
  0 ≤ z → numeral (Py.str z) = z ∧ numeric (Py.str z).
Proof.
  destruct z as [|p|p]; [done| |lia]. intros _.
  destruct (str_N_spec (Npos p)) as [Hv Hn]. by split.
Qed.

Lemma numeric_pad k s :
  numeric s →
  numeric (Py.repeat0 k +:+ s) ∧ numeral (Py.repeat0 k +:+ s) = numeral s.
Proof.
  intros [Hne Hd]. unfold numeral. rewrite numeral_from_repeat0.
  split; [split|done].
  - destruct k; [by rewrite app_empty_l|done].
  - by rewrite string_forall_app, repeat0_digits, Hd.
Qed.

Lemma zfill_numeric w s :
  numeric s → Py.zfill w s = Py.repeat0 (w - String.length s) +:+ s.
Proof.
  intros [Hne Hd]. unfold Py.zfill. case_decide as Hw.
  - replace (w - String.length s)%nat with 0%nat by lia. by rewrite app_empty_l.
  - destruct s as [|c s]; [done|]. simpl in Hd.
    apply andb_true_iff in Hd as [Hc _].
    destruct (is_digit_not_sign c Hc). rewrite bool_decide_eq_false_2; [done|].
    by intros [?|?].
Qed.

Lemma zfill_negative w s :
  Py.zfill w (String "-" s) =
    String "-" (Py.repeat0 (w - S (String.length s)) +:+ s).
Proof.
  unfold Py.zfill. case_decide as Hw; [|done]. simpl in Hw.
  replace (w - S (String.length s))%nat with 0%nat by lia.
  by rewrite app_empty_l.
Qed.

Lemma zfill_str_nonneg w z : 0 ≤ z → Py.zfill w (Py.str z) = zero_padded w z.
Proof. intros Hz. apply zfill_numeric, str_nonneg, Hz. Qed.

(** Reading back what [generate_id] prints. *)
Lemma int_zfill_str w z : Py.int_of_text (Py.zfill w (Py.str z)) = Ok z.
Proof.
  destruct z as [|p|p].
  - destruct (str_nonneg 0) as [Hv Hn]; [done|].
    rewrite zfill_numeric by done.
    destruct (numeric_pad (w - String.length (Py.str 0)) _ Hn) as [Hn' Hv'].
    rewrite int_of_text_numeric by done. by rewrite Hv'.
  - destruct (str_nonneg (Z.pos p)) as [Hv Hn]; [done|].
    rewrite zfill_numeric by done.
    destruct (numeric_pad (w - String.length (Py.str (Z.pos p))) _ Hn) as [Hn' Hv'].
    rewrite int_of_text_numeric by done. by rewrite Hv', Hv.
  - destruct (str_N_spec (Npos p)) as [Hv Hn].
    cbn [Py.str]. rewrite zfill_negative.
    destruct (numeric_pad (w - S (String.length (Py.str_N (N.pos p)))) _ Hn)
      as [Hn' Hv'].
    rewrite int_of_text_negative by done. rewrite Hv', Hv. done.
Qed.

Lemma space_to_ascii_zfill w z :
  Py.space_to_ascii (Py.zfill w (Py.str z)) = Py.zfill w (Py.str z).
Proof.
  destruct z as [|p|p].
  - destruct (str_nonneg 0) as [_ Hn]; [done|].
    rewrite zfill_numeric by done.
    apply space_to_ascii_digits, (numeric_pad _ _ Hn).
  - destruct (str_nonneg (Z.pos p)) as [_ Hn]; [done|].
    rewrite zfill_numeric by done.
    apply space_to_ascii_digits, (numeric_pad _ _ Hn).
  - destruct (str_N_spec (Npos p)) as [_ Hn].
    cbn [Py.str]. rewrite zfill_negative.
    cbn [Py.space_to_ascii]. f_equal.
    apply space_to_ascii_digits, (numeric_pad _ _ Hn).
Qed.

(** A string of [k] digits denotes a number below [10 ^ k]. *)
Lemma numeral_from_bound s acc :
  string_forall is_digit s = true →
  (numeral_from acc s < (acc + 1) * 10 ^ N.of_nat (String.length s))%N.
Proof.
  revert acc. induction s as [|c s IH]; intros acc Hd.
  - simpl. lia.
  - simpl in Hd. apply andb_true_iff in Hd as [Hc Hd].
    destruct (is_digit_val c Hc) as (d & Hv & Hlt).
    cbn [numeral_from String.length]. rewrite Hv. simpl default.
    specialize (IH (10 * acc + d)%N Hd).
    rewrite Nat2N.inj_succ, N.pow_succ_r'. nia.
Qed.

Lemma str_long z : 999 < z → (4 ≤ String.length (Py.str z))%nat.
Proof.
  intros Hz. destruct (str_nonneg z) as [Hv [_ Hd]]; [lia|].
  pose proof (numeral_from_bound (Py.str z) 0 Hd) as Hb.
  unfold numeral in Hv.
  destruct (decide (4 ≤ String.length (Py.str z))%nat) as [|Hshort]; [done|].
  assert (10 ^ N.of_nat (String.length (Py.str z)) ≤ 10 ^ 3)%N.
  { apply N.pow_le_mono_r; lia. }
  lia.
Qed.

(** [str] writes no leading zero: a number of [k > 1] digits is at least
    [10 ^ (k - 1)]. *)
Lemma str_go_length fuel n :
  (n < 2 ^ N.of_nat (S fuel))%N →
  let k := String.length (Py.str_go (S fuel) n "") in
  (k = 1%nat ∧ n < 10)%N ∨ ((2 ≤ k)%nat ∧ 10 ^ N.of_nat (k - 1) ≤ n)%N.
Proof.
  revert n. induction fuel as [|fuel IH]; intros n Hn;
    cbv zeta; rewrite str_go_S; destruct (N.ltb_spec n 10) as [Hlt|Hge].
  - by left.
  - simpl in Hn. lia.
  - by left.
  - rewrite str_go_app, string_length_app.
    change (String.length (String (Py.digit_char (n mod 10)) "")) with 1%nat.
    assert (n / 10 < 2 ^ N.of_nat (S fuel))%N as Hq.
    { rewrite (Nat2N.inj_succ (S fuel)), N.pow_succ_r' in Hn.
      apply N.Div0.div_lt_upper_bound. lia. }
    pose proof (N.div_mod n 10) as Hdm.
    specialize (IH _ Hq). cbv zeta in IH.
    set (k := String.length (Py.str_go (S fuel) (n / 10) "")) in *.
    right. destruct IH as [[Hk Hsmall]|[Hk Hbig]].
    + split; [lia|]. rewrite Hk. simpl. lia.
    + split; [lia|].
      replace (k + 1 - 1)%nat with (S (k - 1)) by lia.
      rewrite Nat2N.inj_succ, N.pow_succ_r' by lia.
      specialize (Hdm ltac:(lia)).
      pose proof (N.le_0_l (n mod 10)).
      revert Hbig. generalize (10 ^ N.of_nat (k - 1))%N. intros x Hx. lia.
Qed.

Lemma str_short z : 0 ≤ z ≤ 999 → (1 ≤ String.length (Py.str z) ≤ 3)%nat.
Proof.
  intros Hz. destruct z as [|p|p]; [simpl; lia| |lia].
  cbn [Py.str]. unfold Py.str_N.
  destruct (str_go_length (N.to_nat (N.log2 (N.pos p))) (N.pos p)) as [[-> _]|[Hk Hbig]].
  - rewrite Nat2N.inj_succ, N2Nat.id. apply N.log2_spec. lia.
  - lia.
  - split; [lia|].
    destruct (decide (String.length
                (Py.str_go (S (N.to_nat (N.log2 (N.pos p)))) (N.pos p) "") ≤ 3)%nat)
      as [|Hlong]; [done|].
    assert (10 ^ 3 ≤ 10 ^ N.of_nat
              (String.length
                 (Py.str_go (S (N.to_nat (N.log2 (N.pos p)))) (N.pos p) "") - 1))%N.
    { apply N.pow_le_mono_r; lia. }
    lia.
Qed.

Lemma zero_padded_width z : 0 ≤ z ≤ 999 → String.length (zero_padded 3 z) = 3%nat.
Proof.
  intros Hz. pose proof (str_short z Hz). unfold zero_padded.
  rewrite string_length_app, length_repeat0. lia.
Qed.

Lemma str_digit z :
  0 ≤ z < 10 → ∃ d, Py.str z = String d "" ∧ is_digit d = true.
Proof.
  intros Hz.
  assert (z = 0 ∨ z = 1 ∨ z = 2 ∨ z = 3 ∨ z = 4 ∨ z = 5 ∨ z = 6 ∨ z = 7
          ∨ z = 8 ∨ z = 9) as Hcases by lia.
  repeat (destruct Hcases as [->|Hcases]; [by eexists|]).
  subst z. by eexists.
Qed.

End strings.

(** ** The result monad *)

Section result.
Context {A B : Type} (f : A → result B).

Lemma mapM_Ok_2 l ks : Forall2 (λ x y, f x = Ok y) l ks → mapM f l = Ok ks.
Proof. induction 1 as [|x y l ks Hx _ IH]; [done|]. simpl. by rewrite Hx, IH. Qed.

Lemma mapM_Ok_1 l ks : mapM f l = Ok ks → Forall2 (λ x y, f x = Ok y) l ks.
Proof.
  revert ks. induction l as [|x l IH]; intros ks; simpl.
  - intros [= <-]. constructor.
  - destruct (f x) as [y|] eqn:Hx; [|done]. simpl.
    destruct (mapM f l) as [ks'|]; [|done]. simpl.
    intros [= <-]. constructor; auto.
Qed.

Lemma mapM_Ok_app l1 l2 k1 k2 :
  mapM f l1 = Ok k1 → mapM f l2 = Ok k2 → mapM f (l1 ++ l2) = Ok (k1 ++ k2).
Proof.
  intros H1%mapM_Ok_1 H2%mapM_Ok_1. apply mapM_Ok_2. by apply Forall2_app.
Qed.

Lemma mapM_Ok_length l ks : mapM f l = Ok ks → length ks = length l.
Proof. intros H%mapM_Ok_1. symmetry. by eapply Forall2_length. Qed.

End result.

(** ** The identifier generator *)

Lemma foldl_max_is_max x l : is_max (foldl Z.max x l) (x :: l).
Proof.
  revert x. induction l as [|y l IH]; intros x; simpl.
  - split; [left|]. intros z ->%list_elem_of_singleton. lia.
  - destruct (IH (x `max` y)) as [Hin Hle]. split.
    + apply elem_of_cons in Hin as [Heq|Hin]; [|set_solver].
      rewrite Heq. destruct (Z.max_spec x y) as [[_ ->]|[_ ->]]; set_solver.
    + intros z Hz. apply elem_of_cons in Hz as [->|Hz].
      * etrans; [|apply Hle; left]. lia.
      * apply elem_of_cons in Hz as [->|Hz].
        -- etrans; [|apply Hle; left]. lia.
        -- apply Hle. by right.
Qed.

Lemma is_max_unique m m' l l' :
  is_max m l → is_max m' l' → l ≡ₚ l' → m = m'.
Proof.
  intros [Hin Hle] [Hin' Hle'] Hp.
  assert (m ≤ m') by (apply Hle'; by rewrite <-Hp).
  assert (m' ≤ m) by (apply Hle; by rewrite Hp).
  lia.
Qed.

Lemma py_max_is_max l : l ≠ [] → ∃ m, Py.max l = Ok m ∧ is_max m l.
Proof. destruct l as [|x l]; [done|]. intros _. eexists. split; [done|]. apply foldl_max_is_max. Qed.

Section generator.
Variable prefix : string.

Lemma id_suffix_of_id it s :
  it !! "ID" = Some (VStr (prefix +:+ s)) → Py.space_to_ascii s = s →
  id_suffix prefix it = Py.int_of_text s.
Proof.
  intros H Hs. unfold id_suffix, getitem. rewrite H. simpl.
  by rewrite drop_str_app, Hs.
Qed.

Lemma id_suffix_ext (a b : item) :
  a !! "ID" = b !! "ID" → id_suffix prefix a = id_suffix prefix b.
Proof. intros H. unfold id_suffix, getitem. by rewrite H. Qed.

Lemma id_suffix_has_id it z :
  id_suffix prefix it = Ok z → is_Some (it !! "ID").
Proof. unfold id_suffix, getitem. by destruct (it !! "ID"). Qed.

(** What [generate_id] returns on a store that is not empty, from the
    integers its list comprehension reads. *)
Lemma generate_id_suffixes l ns :
  l ≠ [] → mapM (id_suffix prefix) l = Ok ns →
  ∃ m, is_max m ns ∧
       generate_id prefix l = Ok (prefix +:+ Py.zfill 3 (Py.str (m + 1))).
Proof.
  intros Hne Hns.
  assert (ns ≠ []) as Hne'.
  { apply mapM_Ok_length in Hns. destruct ns, l; done. }
  destruct (py_max_is_max ns Hne') as (m & Hm & Hmax).
  exists m. split; [done|].
  destruct l as [|it l]; [done|]. unfold generate_id.
  rewrite Hns. simpl. rewrite Hm. done.
Qed.

End generator.

(** ** Stores *)

Lemma get_set_store k l st : get_store k (set_store k l st) = l.
Proof. by destruct k. Qed.

Lemma get_set_store_ne k k' l st :
  k' ≠ k → get_store k' (set_store k l st) = get_store k' st.
Proof. by destruct k, k'. Qed.

Lemma ids_app l1 l2 : ids (l1 ++ l2) = ids l1 ++ ids l2.
Proof. apply fmap_app. Qed.

Lemma length_ids l : length (ids l) = length l.
Proof. apply length_fmap. Qed.

Lemma suffixes_ext prefix l l' :
  ids l = ids l' → mapM (id_suffix prefix) l = mapM (id_suffix prefix) l'.
Proof.
  revert l'. induction l as [|a l IH]; intros [|b l']; try done.
  intros [= Hab Hl]. simpl. by rewrite (id_suffix_ext prefix a b Hab), (IH l' Hl).
Qed.

Lemma suffixes_have_id prefix l ns :
  mapM (id_suffix prefix) l = Ok ns → Forall (λ it : item, is_Some (it !! "ID")) l.
Proof.
  intros H%mapM_Ok_1. induction H as [|it n l ns Hit _ IH]; constructor; [|done].
  by eapply id_suffix_has_id.
Qed.

Lemma suffix_of_generated prefix (r : item) n :
  r !! "ID" = Some (VStr (prefix +:+ Py.zfill 3 (Py.str n))) →
  id_suffix prefix r = Ok n.
Proof.
  intros H. rewrite (id_suffix_of_id _ _ _ H (space_to_ascii_zfill _ _)).
  apply int_zfill_str.
Qed.

(** The identifier [generate_id] returns carries a number above every
    suffix of the store. *)
Lemma generate_id_inv prefix l id :
  generate_id prefix l = Ok id →
  ∃ n ns, mapM (id_suffix prefix) l = Ok ns ∧ Forall (λ x, x < n) ns ∧
          id = prefix +:+ Py.zfill 3 (Py.str n) ∧
          (l = [] → n = 1) ∧ (l ≠ [] → is_max (n - 1) ns).
Proof.
  destruct l as [|it l].
  - intros [= <-]. exists 1, []. by repeat split.
  - unfold generate_id.
    destruct (mapM (id_suffix prefix) (it :: l)) as [ns|] eqn:Hns; [|done].
    assert (ns ≠ []) as Hne.
    { apply mapM_Ok_length in Hns. by destruct ns. }
    destruct (py_max_is_max ns Hne) as (m & Hm & Hmax).
    simpl. rewrite Hm. simpl. intros [= <-].
    exists (m + 1), ns. replace (m + 1 - 1) with m by lia.
    split; [done|]. split; [|done].
    apply Forall_forall. intros x Hx. destruct Hmax as [_ Hle].
    specialize (Hle x Hx). lia.
Qed.

Lemma generate_id_fresh prefix l id (it : item) :
  generate_id prefix l = Ok id → it ∈ l → it !! "ID" ≠ Some (VStr id).
Proof.
  intros (n & ns & Hns & Hlt & -> & _)%generate_id_inv Hin Hid.
  apply list_elem_of_lookup in Hin as [i Hi].
  destruct (Forall2_lookup_l _ _ _ _ _ (mapM_Ok_1 _ _ _ Hns) Hi) as (y & Hy & Hsuf).
  rewrite (suffix_of_generated _ _ _ Hid) in Hsuf. injection Hsuf as <-.
  assert (n < n); [|lia].
  eapply (proj1 (Forall_forall _ _) Hlt). by eapply list_elem_of_lookup_2.
Qed.

Lemma unique_increasing_nil prefix : unique_increasing prefix [].
Proof. split; [constructor|]. exists []. split; [done|constructor]. Qed.

Lemma unique_increasing_snoc prefix l id (r : item) :
  unique_increasing prefix l → generate_id prefix l = Ok id →
  r !! "ID" = Some (VStr id) → unique_increasing prefix (l ++ [r]).
Proof.
  intros [Hnd (ns & Hns & Hsorted)] Hgen Hr. split.
  - rewrite ids_app. apply NoDup_app. split; [done|]. split; [|apply NoDup_singleton].
    intros x Hx ->%list_elem_of_singleton.
    apply list_elem_of_fmap in Hx as (it & Hit & Hin).
    apply (generate_id_fresh _ _ _ it Hgen Hin). by rewrite <-Hit.
  - destruct (generate_id_inv _ _ _ Hgen) as (n & ns' & Hns' & Hlt & -> & _).
    rewrite Hns in Hns'. injection Hns' as <-.
    exists (ns ++ [n]). split.
    + apply mapM_Ok_app; [done|]. simpl. by rewrite (suffix_of_generated _ _ _ Hr).
    + apply StronglySorted_app_2; [|done|repeat constructor].
      intros x y Hx ->%list_elem_of_singleton.
      by eapply (proj1 (Forall_forall _ _) Hlt).
Qed.

Lemma unique_increasing_ext prefix l l' :
  ids l = ids l' → unique_increasing prefix l → unique_increasing prefix l'.
Proof.
  intros Hids [Hnd Hns]. split; [by rewrite <-Hids|].
  by rewrite <-(suffixes_ext prefix l l' Hids).
Qed.

(** ** The status-update loop *)

Section update.
Variables selected new_status : string.

Lemma update_loop_hit l1 (r : item) l2 :
  others selected l1 → r !! "ID" = Some (VStr selected) →
  update_loop selected new_status (l1 ++ r :: l2)
  = Ok (l1 ++ <["Status" := VStr new_status]> r :: l2, true).
Proof.
  intros Hl1 Hr. induction Hl1 as [|it l1 (v & Hv & Hne) _ IH]; simpl.
  - unfold getitem. rewrite Hr. simpl. by rewrite decide_True.
  - unfold getitem at 1. rewrite Hv. simpl. rewrite decide_False by done.
    by rewrite IH.
Qed.

Lemma update_loop_miss l :
  others selected l → update_loop selected new_status l = Ok (l, false).
Proof.
  induction 1 as [|it l (v & Hv & Hne) _ IH]; simpl; [done|].
  unfold getitem at 1. rewrite Hv. simpl. rewrite decide_False by done.
  by rewrite IH.
Qed.

(** A store in which every record has an ID either has none with the
    selected ID or splits at the first one. *)
Lemma first_match l :
  Forall (λ it : item, is_Some (it !! "ID")) l →
  others selected l ∨
  ∃ l1 r l2, l = l1 ++ r :: l2 ∧ others selected l1 ∧ r !! "ID" = Some (VStr selected).
Proof.
  induction 1 as [|it l [v Hv] _ [IH|(l1 & r & l2 & -> & Hl1 & Hr)]].
  - left. constructor.
  - destruct (decide (v = VStr selected)) as [->|Hne].
    + right. exists [], it, l. repeat split; [constructor|done].
    + left. constructor; eauto.
  - destruct (decide (v = VStr selected)) as [->|Hne].
    + right. exists [], it, (l1 ++ r :: l2). repeat split; [constructor|done].
    + right. exists (it :: l1), r, l2. repeat split; [|done].
      constructor; eauto.
Qed.

Lemma others_not_elem l (it : item) :
  others selected l → it ∈ l → it !! "ID" ≠ Some (VStr selected).
Proof.
  intros Hl Hin. apply (proj1 (Forall_forall _ _) Hl) in Hin as (v & -> & Hne).
  congruence.
Qed.

Lemma update_loop_ids l l' hit :
  update_loop selected new_status l = Ok (l', hit) → ids l' = ids l.
Proof.
  revert l' hit. induction l as [|it l IH]; intros l' hit; simpl.
  - by intros [= <- <-].
  - unfold getitem. destruct (it !! "ID") as [v|] eqn:Hv; [|done]. simpl.
    case_decide.
    + intros [= <- <-]. unfold ids. simpl. by rewrite lookup_insert_ne, Hv.
    + destruct (update_loop selected new_status l) as [[rest hit']|]; [|done].
      simpl. intros [= <- <-]. unfold ids. simpl. rewrite Hv. f_equal.
      by eapply IH.
Qed.

Lemma update_loop_total l :
  Forall (λ it : item, is_Some (it !! "ID")) l →
  ∃ l' hit, update_loop selected new_status l = Ok (l', hit).
Proof.
  intros [Hl|(l1 & r & l2 & -> & Hl1 & Hr)]%first_match.
  - rewrite update_loop_miss; eauto.
  - rewrite update_loop_hit; eauto.
Qed.

End update.

(** ** Creation *)

(** The common shape of the three [add_*] functions. *)
Lemma run_create o k st :
  creates o = Some k →
  match generate_id (prefix_of k) (get_store k st) with
  | Raise e => run_op o st = Outcome (Raise e) st []
  | Ok id =>
      ∃ (r : item) pre post,
        run_op o st
        = Outcome (Ok (if k is Findings then VStr id else VNone))
            (set_store k (get_store k st ++ [r]) st)
            [Success (pre +:+ id +:+ post)] ∧
        r !! "ID" = Some (VStr id) ∧
        r !! "Status" = Some (VStr (initial_status k))
  end.
Proof.
  destruct o; intros [= <-]; simpl.
  - unfold add_audit_engagement.
    destruct (generate_id "AE" (audit_engagements st)) as [id|]; [|done].
    eexists _, ("Audit Engagement '" +:+ title +:+ "' created with ID: "), "".
    split; [rewrite app_empty_r, !app_assoc'; reflexivity|done].
  - unfold add_audit_finding.
    destruct (generate_id "F" (audit_findings st)) as [id|]; [|done].
    by eexists _, "Audit Finding '", ("' added to Engagement " +:+ audit_engagement_id).
  - unfold add_corrective_action.
    destruct (generate_id "CA" (corrective_actions st)) as [id|]; [|done].
    by eexists _, "Corrective Action '", ("' added for Finding " +:+ finding_id).
Qed.

(** ** The invariant along a run *)

Lemma generate_id_total prefix l ns :
  mapM (id_suffix prefix) l = Ok ns → ∃ id, generate_id prefix l = Ok id.
Proof.
  intros Hns. destruct (decide (l = [])) as [->|Hne]; [by eexists|].
  destruct (generate_id_suffixes prefix l ns Hne Hns) as (m & _ & ->). by eexists.
Qed.

Lemma init_invariant : store_invariant init.
Proof. intros []; apply unique_increasing_nil. Qed.

Lemma run_op_invariant o st :
  store_invariant st →
  (∃ v, returned (run_op o st) = Ok v) ∧ store_invariant (after (run_op o st)).
Proof.
  intros Hinv. destruct (creates o) as [k|] eqn:Hk.
  - pose proof (run_create o k st Hk) as Hrun.
    destruct (Hinv k) as [Hnd (ns & Hns & Hsorted)].
    destruct (generate_id_total _ _ _ Hns) as [id Hid]. rewrite Hid in Hrun.
    destruct Hrun as (r & pre & post & -> & Hr & _). simpl.
    split; [by eexists|]. intros k'. destruct (decide (k' = k)) as [->|Hne].
    + rewrite get_set_store. by eapply unique_increasing_snoc.
    + by rewrite get_set_store_ne.
  - destruct o as [| | |k sel new]; try done. simpl. unfold update_status.
    destruct (Hinv k) as [Hnd (ns & Hns & Hsorted)].
    destruct (update_loop_total sel new _ (suffixes_have_id _ _ _ Hns))
      as (l' & hit & Hloop).
    rewrite Hloop. simpl. split; [by eexists|].
    intros k'. destruct (decide (k' = k)) as [->|Hne].
    + rewrite get_set_store.
      apply (unique_increasing_ext _ (get_store k st)); [|done].
      symmetry. by eapply update_loop_ids.
    + by rewrite get_set_store_ne.
Qed.

Lemma run_ops_invariant ops st :
  store_invariant st →
  ∃ st', run_ops ops st = Ok st' ∧ store_invariant st'.
Proof.
  revert st. induction ops as [|o ops IH]; intros st Hinv; simpl.
  - by exists st.
  - destruct (run_op_invariant o st Hinv) as [[v Hv] Hinv'].
    rewrite Hv. by apply IH.
Qed.

(** ** Stores numbered from 1 *)

Lemma numbered_suffixes prefix l :
  numbered prefix l →
  mapM (id_suffix prefix) l = Ok (Z.of_nat <$> seq 1 (length l)).
Proof.
  unfold numbered.
  cut (∀ start,
         ids l = (λ i, Some (VStr (prefix +:+ zero_padded 3 (Z.of_nat i))))
                   <$> seq start (length l) →
         mapM (id_suffix prefix) l = Ok (Z.of_nat <$> seq start (length l))).
  { intros Hgen. apply Hgen. }
  induction l as [|it l IH]; intros start Hids; [done|].
  injection Hids as Hit Hl. simpl.
  rewrite <-zfill_str_nonneg in Hit by lia.
  rewrite (suffix_of_generated _ _ _ Hit). simpl.
  by rewrite (IH (S start) Hl).
Qed.

Lemma is_max_seq n : is_max (Z.of_nat (S n)) (Z.of_nat <$> seq 1 (S n)).
Proof.
  split.
  - apply list_elem_of_fmap. exists (S n). split; [done|].
    apply list_elem_of_In, in_seq. lia.
  - intros x (i & -> & Hi%list_elem_of_In%in_seq)%list_elem_of_fmap. lia.
Qed.

Lemma numbered_next prefix l :
  numbered prefix l →
  generate_id prefix l
  = Ok (prefix +:+ zero_padded 3 (Z.of_nat (S (length l)))).
Proof.
  intros Hnum. destruct l as [|it l]; [done|].
  destruct (generate_id_suffixes prefix (it :: l) _ ltac:(done)
              (numbered_suffixes _ _ Hnum)) as (m & Hmax & ->).
  rewrite (is_max_unique _ _ _ _ Hmax (is_max_seq (length l)) (reflexivity _)).
  rewrite zfill_str_nonneg by lia. do 3 f_equal. simpl length. lia.
Qed.

Lemma numbered_snoc prefix l (r : item) :
  numbered prefix l →
  r !! "ID" = Some (VStr (prefix +:+ zero_padded 3 (Z.of_nat (S (length l))))) →
  numbered prefix (l ++ [r]).
Proof.
  unfold numbered. intros Hl Hr.
  rewrite ids_app, length_app. simpl length.
  replace (length l + 1)%nat with (S (length l)) by lia.
  rewrite seq_S, fmap_app, <-Hl. simpl. by rewrite Hr.
Qed.

Lemma numbered_ext prefix l l' :
  ids l = ids l' → numbered prefix l → numbered prefix l'.
Proof.
  unfold numbered. intros Hids Hl.
  by rewrite <-Hids, <-(length_ids l'), <-Hids, length_ids.
Qed.

Lemma numbered_has_id prefix l :
  numbered prefix l → Forall (λ it : item, is_Some (it !! "ID")) l.
Proof. intros H. by eapply suffixes_have_id, numbered_suffixes. Qed.

Lemma creations_cons k o ops :
  creations k (o :: ops)
  = ((if decide (creates o = Some k) then 1 else 0) + creations k ops)%nat.
Proof. unfold creations. rewrite filter_cons. by case_decide. Qed.

Lemma creations_all k ops :
  Forall (λ o, creates o = Some k) ops → creations k ops = length ops.
Proof.
  induction 1 as [|o ops Ho _ IH]; [done|].
  rewrite creations_cons, decide_True by done. simpl. by rewrite IH.
Qed.

Lemma run_op_numbered o st :
  (∀ k, numbered (prefix_of k) (get_store k st)) →
  (∃ v, returned (run_op o st) = Ok v) ∧
  ∀ k, numbered (prefix_of k) (get_store k (after (run_op o st))) ∧
       length (get_store k (after (run_op o st)))
       = ((if decide (creates o = Some k) then 1 else 0)
          + length (get_store k st))%nat.
Proof.
  intros Hnum. destruct (creates o) as [k|] eqn:Hk.
  - pose proof (run_create o k st Hk) as Hrun.
    rewrite (numbered_next _ _ (Hnum k)) in Hrun.
    destruct Hrun as (r & pre & post & -> & Hr & _). simpl.
    split; [by eexists|]. intros k'. destruct (decide (k' = k)) as [->|Hne].
    + rewrite get_set_store, decide_True by done. split.
      * by apply numbered_snoc.
      * rewrite length_app. simpl. lia.
    + rewrite get_set_store_ne, decide_False by congruence. done.
  - destruct o as [| | |k sel new]; try done. simpl. unfold update_status.
    destruct (update_loop_total sel new _ (numbered_has_id _ _ (Hnum k)))
      as (l' & hit & Hloop).
    rewrite Hloop. simpl. split; [by eexists|].
    pose proof (update_loop_ids _ _ _ _ _ Hloop) as Hids.
    intros k'. destruct (decide (k' = k)) as [->|Hne].
    + rewrite get_set_store. split.
      * by apply (numbered_ext _ (get_store k st)).
      * by rewrite <-(length_ids l'), Hids, length_ids.
    + by rewrite get_set_store_ne.
Qed.

Lemma run_ops_numbered ops st :
  (∀ k, numbered (prefix_of k) (get_store k st)) →
  ∃ st', run_ops ops st = Ok st' ∧
         ∀ k, numbered (prefix_of k) (get_store k st') ∧
              length (get_store k st')
              = (creations k ops + length (get_store k st))%nat.
Proof.
  revert st. induction ops as [|o ops IH]; intros st Hnum; simpl.
  - exists st. split; [done|]. intros k. by split.
  - destruct (run_op_numbered o st Hnum) as [[v Hv] Hstep]. rewrite Hv.
    destruct (IH (after (run_op o st)) (λ k, proj1 (Hstep k))) as (st' & Hrun & Hst').
    exists st'. split; [done|]. intros k. destruct (Hst' k) as [Hn Hlen].
    split; [done|]. rewrite Hlen, (proj2 (Hstep k)), creations_cons. lia.
Qed.

Lemma set_get_store k st : set_store k (get_store k st) st = st.
Proof. by destruct k, st. Qed.

Lemma zero_padded_long n :
  999 < n → zero_padded 3 n = Py.str n ∧ (4 ≤ String.length (Py.str n))%nat.
Proof.
  intros Hn. pose proof (str_long n Hn) as Hlen. split; [|done].
  unfold zero_padded. replace (3 - String.length (Py.str n))%nat with 0%nat by lia.
  apply app_empty_l.
Qed.

(** ** Records along a run *)

Lemma update_loop_Forall (P : item → Prop) selected new_status l l' hit :
  (∀ it, P it → P (<["Status" := VStr new_status]> it)) →
  Forall P l → update_loop selected new_status l = Ok (l', hit) → Forall P l'.
Proof.
  intros HP Hl. revert l' hit.
  induction Hl as [|it l Hit Hl IH]; intros l' hit; simpl.
  - intros [= <- <-]. constructor.
  - destruct (getitem it "ID") as [v|]; [|done]. simpl. case_decide.
    + intros [= <- <-]. constructor; auto.
    + destruct (update_loop selected new_status l) as [[rest hit']|]; [|done].
      simpl. intros [= <- <-]. constructor; eauto.
Qed.

Lemma has_status_update new_status it :
  has_status it → has_status (<["Status" := VStr new_status]> it).
Proof. intros _. exists new_status. apply lookup_insert_eq. Qed.

Lemma action_record_update new_status ca :
  action_record ca → action_record (<["Status" := VStr new_status]> ca).
Proof.
  intros [Hs [d Hd]]. split; [by apply has_status_update|].
  exists d. by rewrite lookup_insert_ne.
Qed.

Lemma run_op_well_formed o st : well_formed st → well_formed (after (run_op o st)).
Proof.
  intros (He & Hf & Ha). destruct o as [| | |k sel new]; simpl.
  - unfold add_audit_engagement.
    destruct (generate_id "AE" (audit_engagements st)); [|done]. simpl.
    split; [|done]. apply Forall_app. split; [done|].
    repeat constructor. by exists "Draft".
  - unfold add_audit_finding.
    destruct (generate_id "F" (audit_findings st)); [|done]. simpl.
    split; [done|]. split; [|done]. apply Forall_app. split; [done|].
    repeat constructor. by exists "Open".
  - unfold add_corrective_action.
    destruct (generate_id "CA" (corrective_actions st)); [|done]. simpl.
    split; [done|]. split; [done|]. apply Forall_app. split; [done|].
    repeat constructor; [by exists "Pending"|by exists due_date].
  - unfold update_status.
    destruct (update_loop sel new (get_store k st)) as [[l' hit]|] eqn:Hloop;
      [|done].
    destruct k; simpl in *; repeat split; try done.
    + eapply update_loop_Forall; [apply has_status_update|exact He|exact Hloop].
    + eapply update_loop_Forall; [apply has_status_update|exact Hf|exact Hloop].
    + eapply update_loop_Forall; [apply action_record_update|exact Ha|exact Hloop].
Qed.

Lemma reachable_well_formed st : reachable st → well_formed st.
Proof.
  intros [ops Hrun]. revert Hrun.
  assert (well_formed init) as Hinit by (by repeat split).
  revert Hinit. generalize init. induction ops as [|o ops IH]; intros st0 Hwf; simpl.
  - by intros [= <-].
  - destruct (returned (run_op o st0)); [|done].
    apply IH. by apply run_op_well_formed.
Qed.

(** ** Dashboard *)

Lemma count_where_filter p (q : item → bool) l :
  Forall (λ x, p x = Ok (q x)) l →
  count_where p l = Ok (Z.of_nat (length (List.filter q l))).
Proof.
  induction 1 as [|x l Hx _ IH]; [done|].
  simpl. rewrite Hx, IH. simpl. destruct (q x); simpl; f_equal; lia.
Qed.

Lemma status_is_closed f :
  has_status f → status_is "Closed" f = Ok (is_closed f).
Proof.
  intros [s Hs]. unfold status_is, getitem, is_closed. rewrite Hs. simpl.
  f_equal. apply bool_decide_ext. split; congruence.
Qed.

Lemma closed_findings_count st :
  Forall has_status (audit_findings st) →
  closed_findings st = Ok (closed_count st).
Proof.
  intros Hwf. apply count_where_filter.
  eapply Forall_impl; [exact Hwf|]. apply status_is_closed.
Qed.

Lemma overdue_test today ca :
  action_record ca →
  (status ← getitem ca "Status";
   if bool_decide (status ∉ [VStr "Verified"; VStr "Closed"])
   then due ← getitem ca "Due Date"; date_lt due today
   else Ok false) = Ok (overdue today ca).
Proof.
  intros [[s Hs] [d Hd]]. unfold getitem, overdue. rewrite Hs, Hd. simpl.
  destruct (decide (VStr s = VStr "Verified")) as [Hv|Hv].
  { rewrite bool_decide_eq_false_2 by (rewrite Hv; set_solver).
    by rewrite (bool_decide_eq_true_2 _ Hv). }
  destruct (decide (VStr s = VStr "Closed")) as [Hc|Hc].
  { rewrite bool_decide_eq_false_2 by (rewrite Hc; set_solver).
    by rewrite (bool_decide_eq_true_2 _ Hc), andb_false_r. }
  rewrite bool_decide_eq_true_2.
  - by rewrite !bool_decide_eq_false_2 by done.
  - by intros [?|[?|?%elem_of_nil]%elem_of_cons]%elem_of_cons.
Qed.

(** The rows of a recent-activity table are the last five records. *)
Lemma recent_rows l :
  rows (tail 5 (DataFrame_of l))
  = (λ r : item, r ∪ gset_to_gmap VNaN (⋃ (dom <$> l)))
      <$> drop (length l - 5) l.
Proof. unfold tail, DataFrame_of. simpl. by rewrite length_fmap, fmap_drop. Qed.

Lemma fixed1_one_decimal negative tenths :
  0 ≤ tenths → one_decimal (fixed1 negative tenths).
Proof.
  intros Ht. unfold fixed1.
  destruct (str_digit (tenths mod 10)) as (d & -> & Hd).
  { apply Z.mod_pos_bound. lia. }
  exists (if negative then "-" else ""), (Py.str (tenths / 10)), d.
  split; [done|]. split; [destruct negative; auto|]. split; [|done].
  apply str_nonneg. apply Z.div_pos; lia.
Qed.

Lemma round_half_even_nonneg num den :
  0 ≤ num → 0 < den → 0 ≤ round_half_even num den.
Proof.
  intros Hnum Hden. unfold round_half_even.
  assert (0 ≤ num / den) by (apply Z.div_pos; lia).
  repeat case_match; lia.
Qed.

Lemma format_1f_one_decimal x : finite x → one_decimal (format_1f x).
Proof.
  destruct x as [z|f]; simpl.
  - intros _. apply fixed1_one_decimal. lia.
  - destruct (Prim2SF f) as [sg|sg| |sg m e]; try done; intros _.
    + by apply fixed1_one_decimal.
    + apply fixed1_one_decimal. destruct (Z.leb_spec 0 e).
      * assert (0 ≤ 2 ^ e) by (apply Z.pow_nonneg; lia). lia.
      * apply round_half_even_nonneg; [lia|]. apply Z.pow_pos_nonneg; lia.
Qed.

(** ** Numerals and the limit *)

Lemma digit_of_val c : digit_of c = Py.digit_val c.
Proof. by destruct c as [[] [] [] [] [] [] [] []]. Qed.

Lemma decimal_from_numeral acc s :
  string_forall is_digit s = true →
  decimal_from acc s = Some (numeral_from acc s).
Proof.
  revert acc. induction s as [|c s IH]; intros acc Hs; [done|].
  simpl in Hs. apply andb_true_iff in Hs as [Hc Hs].
  destruct (is_digit_val c Hc) as (d & Hd & _).
  simpl. rewrite digit_of_val, Hd. simpl. by apply IH.
Qed.

Lemma decimal_from_digits acc s v :
  decimal_from acc s = Some v →
  string_forall is_digit s = true ∧ numeral_from acc s = v.
Proof.
  revert acc. induction s as [|c s IH]; intros acc; simpl.
  - by intros [= <-].
  - rewrite digit_of_val. unfold is_digit, Py.digit_val.
    destruct (Ascii.is_nat c) as [d|]; [|done]. simpl. apply IH.
Qed.

Lemma decimal_numeric s n : decimal s n ↔ numeric s ∧ numeral s = n.
Proof.
  unfold decimal, numeric, numeral. split.
  - intros (Hne & Hn & Hd). apply decimal_from_digits in Hd as [Hs Hv].
    rewrite Hv. split; [done|lia].
  - intros [[Hne Hs] <-]. split; [done|]. split; [lia|].
    rewrite (decimal_from_numeral 0 s Hs). f_equal. lia.
Qed.

Lemma digit_count_digits s :
  string_forall is_digit s = true → CPython.digit_count s = String.length s.
Proof.
  induction s as [|c s IH]; [done|]. simpl.
  intros [Hc Hs]%andb_true_iff.
  destruct (is_digit_val c Hc) as (d & -> & _). by rewrite (IH Hs).
Qed.

Lemma exceeds_lifted digits : CPython.exceeds 0 digits = false.
Proof. done. Qed.

Lemma exceeds_within maxdigits digits :
  (digits ≤ maxdigits)%nat → CPython.exceeds maxdigits digits = false.
Proof.
  intros H. unfold CPython.exceeds. apply andb_false_iff. right.
  apply Nat.ltb_ge. lia.
Qed.

(** Reading a numeral under the limit. *)
Lemma int_of_text_decimal maxdigits s n :
  decimal s n →
  CPython.int_of_text maxdigits s
  = if CPython.exceeds maxdigits (String.length s) then Raise ValueError else Ok n.
Proof.
  intros [Hnum <-]%decimal_numeric. unfold CPython.int_of_text.
  rewrite (int_of_text_numeric s Hnum). simpl.
  by rewrite (digit_count_digits s (proj2 Hnum)).
Qed.

Lemma id_suffix_with_of_id maxdigits prefix (it : item) s n :
  it !! "ID" = Some (VStr (prefix +:+ s)) → decimal s n →
  id_suffix_with maxdigits prefix it = CPython.int_of_text maxdigits s.
Proof.
  intros H [[_ Hs] _]%decimal_numeric. unfold id_suffix_with, getitem.
  rewrite H. simpl. by rewrite drop_str_app, (space_to_ascii_digits s Hs).
Qed.

(** With the limit lifted the conversions are those of [Py]. *)
Lemma id_suffix_lifted prefix (it : item) :
  id_suffix_with 0 prefix it = id_suffix prefix it.
Proof.
  unfold id_suffix_with, id_suffix. destruct (getitem it "ID") as [v|]; [|done].
  simpl. destruct (Py.slice_from v (String.length prefix)) as [w|]; [|done].
  simpl. destruct w as [|s|n|b|d|]; try done; simpl;
    unfold CPython.int_of_text.
  - by destruct (Py.int_of_text (Py.space_to_ascii s)).
  - by destruct (Py.int_of_text b).
Qed.

Lemma generate_id_lifted prefix l : generate_id_with 0 prefix l = generate_id prefix l.
Proof.
  destruct l as [|it l]; [done|]. unfold generate_id_with, generate_id.
  assert (mapM (id_suffix_with 0 prefix) (it :: l) = mapM (id_suffix prefix) (it :: l))
    as ->.
  { generalize (it :: l). intros k. induction k as [|x k IH]; [done|].
    simpl. by rewrite id_suffix_lifted, IH. }
  destruct (mapM (id_suffix prefix) (it :: l)) as [ns|]; [|done]. simpl.
  by destruct (Py.max ns).
Qed.

(** The length of [str n]. *)
Lemma str_length_bounds z :
  0 < z →
  10 ^ Z.of_nat (String.length (Py.str z) - 1) ≤ z
  < 10 ^ Z.of_nat (String.length (Py.str z)).
Proof.
  intros Hz. destruct z as [|p|p]; try lia. cbn [Py.str]. split.
  - unfold Py.str_N.
    destruct (str_go_length (N.to_nat (N.log2 (N.pos p))) (N.pos p))
      as [[-> _]|[Hk Hbig]].
    + rewrite Nat2N.inj_succ, N2Nat.id. apply N.log2_spec. lia.
    + simpl. lia.
    + revert Hbig.
      generalize (String.length
                    (Py.str_go (S (N.to_nat (N.log2 (N.pos p)))) (N.pos p) "") - 1)%nat.
      intros k Hbig.
      assert (Z.of_N (10 ^ N.of_nat k) ≤ Z.pos p) as H by lia.
      by rewrite N2Z.inj_pow, nat_N_Z in H.
  - destruct (str_N_spec (N.pos p)) as [Hv [_ Hd]].
    pose proof (numeral_from_bound (Py.str_N (N.pos p)) 0 Hd) as Hb.
    unfold numeral in Hv.
    assert (Z.of_N (numeral_from 0 (Py.str_N (N.pos p)))
            < Z.of_N (10 ^ N.of_nat (String.length (Py.str_N (N.pos p))))) as H by lia.
    rewrite N2Z.inj_pow, nat_N_Z, Hv in H. exact H.
Qed.

Lemma str_length_le z k :
  0 ≤ z < 10 ^ Z.of_nat k → (1 ≤ k)%nat → (String.length (Py.str z) ≤ k)%nat.
Proof.
  intros [Hz Hlt] Hk. destruct (decide (z = 0)) as [->|Hnz]; [simpl; lia|].
  destruct (str_length_bounds z ltac:(lia)) as [Hlow _].
  destruct (decide (String.length (Py.str z) ≤ k)%nat) as [|Hlong]; [done|].
  assert (10 ^ Z.of_nat k ≤ 10 ^ Z.of_nat (String.length (Py.str z) - 1)).
  { apply Z.pow_le_mono_r; lia. }
  lia.
Qed.

Lemma str_allowed maxdigits z :
  0 ≤ z → maxdigits = 0%nat ∨ z < 10 ^ Z.of_nat maxdigits →
  CPython.str maxdigits z = Ok (Py.str z).
Proof.
  intros Hz Hlim. unfold CPython.str. rewrite Z.abs_eq by done.
  destruct Hlim as [->|Hlt]; [done|].
  destruct (decide (maxdigits = 0%nat)) as [->|Hpos]; [done|].
  rewrite exceeds_within; [done|]. apply str_length_le; lia.
Qed.

Lemma str_no_leading_zero z s :
  0 ≤ z → (2 ≤ String.length (Py.str z))%nat → Py.str z ≠ String "0" s.
Proof.
  intros Hz Hlen Hstr.
  assert (0 < z) as Hpos.
  { destruct (decide (z = 0)) as [->|]; [simpl in Hlen|]; lia. }
  destruct (str_length_bounds z Hpos) as [Hlow _].
  destruct (str_nonneg z Hz) as [Hv [_ Hd]].
  rewrite Hstr in Hlow, Hv, Hd. simpl in Hd.
  pose proof (numeral_from_bound s 0 Hd) as Hb.
  unfold numeral in Hv. simpl in Hv, Hlow.
  rewrite Nat.sub_0_r in Hlow.
  change (10 * 0 + N.of_nat 0)%N with 0%N in Hv.
  rewrite N.add_0_l, N.mul_1_l in Hb.
  apply N2Z.inj_lt in Hb. rewrite N2Z.inj_pow, nat_N_Z in Hb.
  change (Z.of_N 10) with 10 in Hb. lia.
Qed.

(** What [generate_id] appends to the prefix. *)
Lemma zfill_str_padded3 z : 0 ≤ z → padded3 (Py.zfill 3 (Py.str z)) z.
Proof.
  intros Hz. rewrite zfill_str_nonneg by done. unfold zero_padded.
  destruct (str_nonneg z Hz) as [Hv Hnum].
  destruct (numeric_pad (3 - String.length (Py.str z)) _ Hnum) as [Hnum' Hv'].
  split; [|split].
  - apply decimal_numeric. split; [done|]. by rewrite Hv'.
  - rewrite string_length_app, length_repeat0. lia.
  - rewrite string_length_app, length_repeat0. intros Hlong s' Hs'.
    replace (3 - String.length (Py.str z))%nat with 0%nat in Hs' by lia.
    rewrite app_empty_l in Hs'.
    apply (str_no_leading_zero z s' Hz); [lia|done].
Qed.

Lemma has_suffixes_values maxdigits prefix l sfx :
  has_suffixes prefix l sfx → Forall (allowed maxdigits) sfx →
  mapM (id_suffix_with maxdigits prefix) l = Ok (sfx.*2).
Proof.
  intros Hids Hlim. apply mapM_Ok_2.
  induction Hids as [|it sn l sfx [Hid Hdec] _ IH]; [constructor|].
  apply Forall_cons in Hlim as [Hsn Hlim]. constructor; [|by apply IH].
  rewrite (id_suffix_with_of_id _ _ _ _ _ Hid Hdec), (int_of_text_decimal _ _ _ Hdec).
  destruct Hsn as [->|[Hlen _]]; [done|]. by rewrite exceeds_within.
Qed.

(** [padded3] determines the string: a number has one decimal rendering
    zero-padded to width 3. *)
Lemma digit_of_char c d : digit_of c = Some d → c = ascii_of_N (d + 48) ∧ (d < 10)%N.
Proof.
  unfold digit_of. cbv zeta.
  destruct (N.leb_spec 48 (N_of_ascii c)) as [Hlow|]; [|done].
  destruct (N.leb_spec (N_of_ascii c) 57) as [Hhigh|]; [|done].
  simpl. intros [= <-]. split; [|lia].
  replace (N_of_ascii c - 48 + 48)%N with (N_of_ascii c) by lia.
  by rewrite ascii_N_embedding.
Qed.

Lemma decimal_from_inj s t a b v :
  String.length s = String.length t →
  decimal_from a s = Some v → decimal_from b t = Some v → a = b ∧ s = t.
Proof.
  revert t a b. induction s as [|c s IH]; intros [|c' t] a b Hlen; try done.
  - simpl. by intros [= ->] [= ->].
  - simpl in *. destruct (digit_of c) as [d|] eqn:Hc; [|done].
    destruct (digit_of c') as [d'|] eqn:Hc'; [|done]. simpl.
    intros Hs Ht. destruct (IH t _ _ ltac:(lia) Hs Ht) as [Hab ->].
    apply digit_of_char in Hc as [-> Hd], Hc' as [-> Hd'].
    assert (a = b ∧ d = d') as [-> ->] by lia. done.
Qed.

Lemma decimal_from_bounds s acc v :
  decimal_from acc s = Some v →
  (acc * 10 ^ N.of_nat (String.length s) ≤ v
   < (acc + 1) * 10 ^ N.of_nat (String.length s))%N.
Proof.
  revert acc. induction s as [|c s IH]; intros acc; simpl.
  - intros [= <-]. lia.
  - destruct (digit_of c) as [d|] eqn:Hc; [|done]. simpl. intros Hv.
    apply digit_of_char in Hc as [_ Hd]. specialize (IH _ Hv).
    rewrite Nat2N.inj_succ, N.pow_succ_r'. nia.
Qed.

Lemma decimal_length_unique s t n :
  decimal s n → decimal t n →
  (String.length s < String.length t)%nat → ∃ t', t = String "0" t'.
Proof.
  intros (_ & _ & Hs) (Hne & _ & Ht) Hlen.
  destruct t as [|c t]; [done|]. exists t. f_equal.
  simpl in Ht. destruct (digit_of c) as [d|] eqn:Hc; [|done]. simpl in Ht.
  apply decimal_from_bounds in Hs, Ht.
  destruct (digit_of_char c d Hc) as [-> Hd].
  destruct (decide (d = 0%N)) as [->|Hd0]; [done|]. exfalso.
  simpl in Hlen.
  assert (10 ^ N.of_nat (String.length s) ≤ 10 ^ N.of_nat (String.length t))%N.
  { apply N.pow_le_mono_r; lia. }
  nia.
Qed.

Lemma padded3_unique s t n : padded3 s n → padded3 t n → s = t.
Proof.
  intros (Hs & Hs3 & Hsz) (Ht & Ht3 & Htz).
  destruct (lt_eq_lt_dec (String.length s) (String.length t)) as [[Hlt|Heq]|Hgt].
  - destruct (decimal_length_unique s t n Hs Ht Hlt) as [t' ->].
    by destruct (Htz ltac:(lia) t').
  - destruct Hs as (_ & _ & Hs), Ht as (_ & _ & Ht).
    by destruct (decimal_from_inj s t 0 0 _ Heq Hs Ht).
  - destruct (decimal_length_unique t s n Ht Hs Hgt) as [s' ->].
    by destruct (Hsz ltac:(lia) s').
Qed.

(** Exceptions of the reading under the limit, on numerals. *)
Lemma int_of_text_decimal_cases maxdigits s n :
  decimal s n →
  CPython.int_of_text maxdigits s = Ok n ∨
  CPython.int_of_text maxdigits s = Raise ValueError.
Proof.
  intros Hdec. rewrite (int_of_text_decimal _ _ _ Hdec).
  destruct (CPython.exceeds maxdigits (String.length s)); auto.
Qed.

(** ** The generator and the order of the records *)

Lemma same_reads_trans r1 r2 r3 :
  same_reads r1 r2 → same_reads r2 r3 → same_reads r1 r3.
Proof.
  destruct r1, r2, r3; simpl; try done; [apply transitivity|congruence].
Qed.

(** A function that raises nothing but [ValueError] reads permuted lists
    alike. *)
Lemma mapM_permutation {A} (f : A → result Z) l l' :
  l ≡ₚ l' →
  Forall (λ x, (∃ n, f x = Ok n) ∨ f x = Raise ValueError) l →
  same_reads (mapM f l) (mapM f l').
Proof.
  induction 1 as [|x l l' Hp IH|x y l|l1 l2 l3 Hp12 IH12 Hp23 IH23]; intros Hl.
  - simpl. reflexivity.
  - apply Forall_cons in Hl as [Hx Hl]. specialize (IH Hl). simpl.
    destruct Hx as [[n ->]| ->]; [|done]. simpl.
    destruct (mapM f l), (mapM f l'); simpl in *; try done. by constructor.
  - apply Forall_cons in Hl as [Hy Hl]. apply Forall_cons in Hl as [Hx Hl].
    simpl. destruct Hx as [[n ->]| ->], Hy as [[m ->]| ->]; simpl; try done.
    destruct (mapM f l); simpl; [apply Permutation_swap|done].
  - eapply same_reads_trans; [by apply IH12|]. apply IH23. by rewrite <-Hp12.
Qed.

Lemma py_max_permutation ks ks' : ks ≡ₚ ks' → Py.max ks = Py.max ks'.
Proof.
  intros Hp. destruct (decide (ks = [])) as [->|Hne].
  { by apply Permutation_nil_l in Hp as ->. }
  assert (ks' ≠ []) as Hne'.
  { intros ->. by apply Permutation_nil_r in Hp. }
  destruct (py_max_is_max ks Hne) as (m & -> & Hm).
  destruct (py_max_is_max ks' Hne') as (m' & -> & Hm').
  by rewrite (is_max_unique _ _ _ _ Hm Hm' Hp).
Qed.

Lemma has_suffixes_reads maxdigits prefix l sfx :
  has_suffixes prefix l sfx →
  mapM (id_suffix_with maxdigits prefix) l
  = mapM (CPython.int_of_text maxdigits) (sfx.*1).
Proof.
  induction 1 as [|it sn l sfx [Hid Hdec] _ IH]; [done|].
  simpl. by rewrite (id_suffix_with_of_id _ _ _ _ _ Hid Hdec), IH.
Qed.

Lemma has_suffixes_numerals maxdigits prefix l sfx :
  has_suffixes prefix l sfx →
  Forall (λ s, (∃ n, CPython.int_of_text maxdigits s = Ok n)
               ∨ CPython.int_of_text maxdigits s = Raise ValueError) (sfx.*1).
Proof.
  induction 1 as [|it sn l sfx [_ Hdec] _ IH]; [constructor|].
  constructor; [|done].
  destruct (int_of_text_decimal_cases maxdigits _ _ Hdec) as [->| ->]; eauto.
Qed.

Lemma generate_id_with_reads maxdigits prefix l l' :
  length l = length l' →
  same_reads (mapM (id_suffix_with maxdigits prefix) l)
    (mapM (id_suffix_with maxdigits prefix) l') →
  generate_id_with maxdigits prefix l = generate_id_with maxdigits prefix l'.
Proof.
  intros Hlen Hsame. destruct l as [|it l], l' as [|it' l']; try done.
  unfold generate_id_with.
  destruct (mapM (id_suffix_with maxdigits prefix) (it :: l)) as [ks|e],
    (mapM (id_suffix_with maxdigits prefix) (it' :: l')) as [ks'|e'];
    simpl in *; try done; [|congruence].
  by rewrite (py_max_permutation ks ks' Hsame).
Qed.

(** ** The short run *)

Lemma example_run_state : run_ops example_run init = Ok example_state.
Proof. vm_compute. reflexivity. Qed.

Lemma example_state_reachable : reachable example_state.
Proof. exists example_run. exact example_run_state. Qed.

Lemma example_state_finding_ids :
  ids (audit_findings example_state) = [Some (VStr "F001"); Some (VStr "F002")].
Proof. vm_compute. reflexivity. Qed.


Lemma example_state_findings : length (audit_findings example_state) = 2%nat.
Proof. vm_compute. reflexivity. Qed.

Lemma example_state_totals :
  total_findings example_state = 2 ∧ closed_count example_state = 1.
Proof. split; vm_compute; reflexivity. Qed.

Lemma example_finding_returned :
  returned (run_op example_finding example_state) = Ok (VStr "F003").
Proof. vm_compute. reflexivity. Qed.

(** * The properties of the specification *)

(** C1, counterexample. Under the default limit of 4300 digits, a store
    whose only ID is AE followed by a numeric suffix of 4301 zeros makes
    the generator raise [ValueError]; with the limit lifted it returns
    AE001. *)
Lemma generate_id_digit_limit :
  has_suffixes "AE" long_id_store [(Py.repeat0 4301, 0)] ∧
  generate_id_with CPython.default_max_str_digits "AE" long_id_store
  = Raise ValueError ∧
  generate_id_with 0 "AE" long_id_store = Ok "AE001".
Proof.
  split; [|split].
  - repeat constructor; by vm_compute.
  - vm_compute. reflexivity.
  - vm_compute. reflexivity.
Qed.

(** C1, as amended. For every limit of the interpreter, every prefix and
    every store whose IDs are the prefix followed by a numeric suffix that
    the limit allows (it is lifted, or the suffix has no more digits than
    the limit and the next number is below 10 to the power of the limit),
    [generate_id] raises nothing: it returns prefix + "001" on the empty
    store and otherwise the prefix followed by the greatest numeric suffix
    plus one, in decimal and zero-padded to width 3. *)
Theorem generate_id_next (maxdigits : nat) (prefix : string) (l : list item)
    (sfx : list (string * Z))
    (Hids : has_suffixes prefix l sfx)
    (Hlim : Forall (allowed maxdigits) sfx) :
  (l = [] → generate_id_with maxdigits prefix l = Ok (prefix +:+ "001")) ∧
  (l ≠ [] →
     ∃ m ds, is_max m (sfx.*2) ∧
             generate_id_with maxdigits prefix l = Ok (prefix +:+ ds) ∧
             padded3 ds (m + 1)).
Proof.
  split; [by intros ->|]. intros Hne.
  pose proof (has_suffixes_values maxdigits prefix l sfx Hids Hlim) as Hns.
  assert (sfx.*2 ≠ []) as Hne'.
  { apply mapM_Ok_length in Hns. destruct (sfx.*2), l; done. }
  destruct (py_max_is_max _ Hne') as (m & Hm & Hmax).
  destruct Hmax as [Hin Hle]. pose proof Hin as Hin'.
  apply list_elem_of_fmap in Hin' as ([s n] & -> & Hsn).
  assert (0 ≤ n) as Hn.
  { apply list_elem_of_lookup in Hsn as [i Hi].
    destruct (Forall2_lookup_r _ _ _ _ _ Hids Hi) as (it & _ & _ & _ & Hpos & _).
    done. }
  assert (CPython.str maxdigits (n + 1) = Ok (Py.str (n + 1))) as Hstr.
  { apply str_allowed; [lia|].
    destruct (proj1 (Forall_forall _ _) Hlim _ Hsn) as [->|[_ Hnext]]; auto. }
  exists n, (Py.zfill 3 (Py.str (n + 1))). split; [done|]. split.
  - destruct l as [|it l]; [done|]. unfold generate_id_with.
    rewrite Hns. simpl. rewrite Hm. simpl. by rewrite Hstr.
  - apply zfill_str_padded3. lia.
Qed.

Lemma generate_id_next_witness :
  has_suffixes "AE" [rec_of_id "AE001"; rec_of_id "AE007"] [("001", 1); ("007", 7)] ∧
  Forall (allowed 4300) [("001", 1); ("007", 7)] ∧
  ∃ m ds, is_max m [1; 7] ∧
          generate_id_with 4300 "AE" [rec_of_id "AE001"; rec_of_id "AE007"]
          = Ok ("AE" +:+ ds) ∧
          padded3 ds (m + 1).
Proof.
  assert (has_suffixes "AE" [rec_of_id "AE001"; rec_of_id "AE007"]
            [("001", 1); ("007", 7)]) as H.
  { repeat constructor; done. }
  assert (∀ s n, (String.length s ≤ 4300)%nat → n + 1 < 10 → allowed 4300 (s, n))
    as Hall.
  { intros s n Hs Hn. right. split; [exact Hs|].
    apply Z.lt_le_trans with (10 ^ 1); [exact Hn|].
    apply Z.pow_le_mono_r; lia. }
  assert (Forall (allowed 4300) [("001", 1); ("007", 7)]) as Hlim.
  { constructor; [apply Hall; simpl; lia|].
    constructor; [apply Hall; simpl; lia|]. constructor. }
  split; [exact H|]. split; [exact Hlim|].
  apply (generate_id_next 4300 "AE" _ _ H Hlim). done.
Defined.

(** C2. In every state reached from the empty stores by a sequence of
    create and status-update operations, the IDs of each store are pairwise
    distinct and their numeric suffixes strictly increase in insertion
    order; every operation preserves this invariant. *)
Theorem ids_unique_increasing :
  (∀ st, reachable st → store_invariant st) ∧
  (∀ o st, store_invariant st → store_invariant (after (run_op o st))).
Proof.
  split.
  - intros st [ops Hrun].
    destruct (run_ops_invariant ops init init_invariant) as (st' & Hrun' & Hinv).
    rewrite Hrun in Hrun'. by injection Hrun' as ->.
  - intros o st Hinv. apply (run_op_invariant o st Hinv).
Qed.

Lemma ids_unique_increasing_witness :
  ∃ st, run_ops example_run init = Ok st ∧ store_invariant st ∧
        ids (audit_findings st) = [Some (VStr "F001"); Some (VStr "F002")].
Proof.
  exists example_state. split; [exact example_run_state|].
  split; [|exact example_state_finding_ids].
  apply (proj1 ids_unique_increasing). exact example_state_reachable.
Defined.

(** C3. Starting from the empty stores, after any run in which N records
    were created in a store (N is the length of the run when it consists of
    creations in that store only), no operation has raised and the IDs of
    that store are exactly prefix001, prefix002, ..., prefix(N), each number
    zero-padded to width 3; past 999 the padding adds nothing and the
    suffix has four digits or more, up to 999 it has exactly three. *)
Theorem sequential_ids (k : store) (ops : list op) :
  ∃ st, run_ops ops init = Ok st ∧
        ids (get_store k st)
        = (λ i, Some (VStr (prefix_of k +:+ zero_padded 3 (Z.of_nat i))))
            <$> seq 1 (creations k ops) ∧
        (Forall (λ o, creates o = Some k) ops → creations k ops = length ops) ∧
        (∀ n, 999 < n →
              zero_padded 3 n = Py.str n ∧ (4 ≤ String.length (Py.str n))%nat) ∧
        (∀ n, 0 ≤ n ≤ 999 → String.length (zero_padded 3 n) = 3%nat).
Proof.
  destruct (run_ops_numbered ops init) as (st & Hrun & Hst).
  { by intros []. }
  exists st. split; [done|].
  split; [|split; [apply creations_all|];
           split; [apply zero_padded_long|apply zero_padded_width]].
  destruct (Hst k) as [Hnum Hlen]. unfold numbered in Hnum.
  rewrite Hnum, Hlen. by destruct k; simpl; rewrite Nat.add_0_r.
Qed.

(** C4, counterexample.  On the empty store the new engagement gets the ID
    AE001, and [add_audit_engagement] returns [None], not that ID. *)
Lemma add_audit_engagement_returns_none :
  generate_id "AE" (audit_engagements init) = Ok "AE001" ∧
  returned (add_audit_engagement "Annual IT Security Audit" "IT" "IT"
              "John Doe" "Emily White" 738000 738030 None None init)
  ≠ Ok (VStr "AE001").
Proof. split; [reflexivity|discriminate]. Qed.

(** C4, as amended. A creation that succeeds takes its ID from
    [generate_id] on its own store, and that ID is not the ID of any record
    already there; it appends exactly one record, carrying this ID and the
    status Draft (engagement), Open (finding) or Pending (corrective
    action); it leaves the other two stores as they were; it shows the ID
    in a success message; [add_audit_finding] returns the ID, the other two
    return [None]. *)
Theorem create_appends (o : op) (k : store) (st : session_state) (v : value)
    (Hk : creates o = Some k) (Hok : returned (run_op o st) = Ok v) :
  ∃ new_id (r : item) pre post,
    generate_id (prefix_of k) (get_store k st) = Ok new_id ∧
    (∀ it : item, it ∈ get_store k st → it !! "ID" ≠ Some (VStr new_id)) ∧
    r !! "ID" = Some (VStr new_id) ∧
    r !! "Status" = Some (VStr (initial_status k)) ∧
    get_store k (after (run_op o st)) = get_store k st ++ [r] ∧
    (∀ k', k' ≠ k → get_store k' (after (run_op o st)) = get_store k' st) ∧
    shown (run_op o st) = [Success (pre +:+ new_id +:+ post)] ∧
    v = (if k is Findings then VStr new_id else VNone).
Proof.
  pose proof (run_create o k st Hk) as Hrun.
  destruct (generate_id (prefix_of k) (get_store k st)) as [id|e] eqn:Hgen.
  - destruct Hrun as (r & pre & post & Hrun & Hid & Hstatus).
    rewrite Hrun in Hok |- *. simpl in *. injection Hok as <-.
    exists id, r, pre, post. repeat split; try done.
    + intros it Hin. by eapply generate_id_fresh.
    + apply get_set_store.
    + intros k' Hne. by apply get_set_store_ne.
  - by rewrite Hrun in Hok.
Qed.

Lemma create_appends_witness :
  let o := AddAction "F001" "Jane Smith" "Restore the backups" 738100 None None in
  creates o = Some Actions ∧ returned (run_op o init) = Ok VNone ∧
  ∃ new_id (r : item) pre post,
    generate_id "CA" [] = Ok new_id ∧
    (∀ it : item, it ∈ @nil item → it !! "ID" ≠ Some (VStr new_id)) ∧
    r !! "ID" = Some (VStr new_id) ∧
    r !! "Status" = Some (VStr "Pending") ∧
    corrective_actions (after (run_op o init)) = [] ++ [r] ∧
    (∀ k', k' ≠ Actions → get_store k' (after (run_op o init)) = get_store k' init) ∧
    shown (run_op o init) = [Success (pre +:+ new_id +:+ post)] ∧
    VNone = VNone.
Proof.
  split; [reflexivity|]. split; [reflexivity|].
  exact (create_appends
           (AddAction "F001" "Jane Smith" "Restore the backups" 738100 None None)
           Actions init VNone eq_refl eq_refl).
Defined.

(** C5, counterexample.  With an empty title nothing fails.  The create
    operation [add_audit_engagement] tests no field: on the empty stores it
    returns normally and appends the record AE001 whose title is empty.
    The submit handler of the form, which does test the fields, returns
    normally too: it raises no exception, and the program has no
    [ValidationError]. *)
Lemma empty_title_raises_nothing :
  returned (add_audit_engagement "" "Finance" "Financial" "John Doe" ""
              738000 738030 None None init) = Ok VNone ∧
  (λ it : item, (it !! "ID", it !! "Title")) <$>
    audit_engagements
      (after (add_audit_engagement "" "Finance" "Financial" "John Doe" ""
                738000 738030 None None init))
  = [(Some (VStr "AE001"), Some (VStr ""))] ∧
  returned (submit_engagement_form "" "Finance" "Financial" "John Doe" ""
              738000 738030 None init) = Ok VNone.
Proof.
  split; [|split]; vm_compute; reflexivity.
Qed.

(** C5, as amended. When a required field of a form is empty (or, for the
    parent reference, not selected), the submit handler does not call the
    create operation and raises nothing: it returns normally, leaves the
    session state as it was, in particular the contents and the size of
    every store, and reports the missing fields in an error message. *)
Theorem missing_required_field (st : session_state) :
  (∀ title department audit_type auditors auditees start_date end_date file,
     title = "" ∨ department = "" ∨ auditors = "" →
     submit_engagement_form title department audit_type auditors auditees
       start_date end_date file st
     = Outcome (Ok VNone) st
         [Error "Please fill in all required fields (Title, Department, Auditors)."]) ∧
  (∀ engagement category description file risk_level root_cause recommendation,
     engagement = None ∨ engagement = Some "" ∨ description = "" ∨ risk_level = "" →
     submit_finding_form engagement category description file risk_level
       root_cause recommendation st
     = Outcome (Ok VNone) st
         [Error "Please fill in all required fields (Engagement, Description, Risk Level)."]) ∧
  (∀ finding person description due_date file,
     finding = None ∨ finding = Some "" ∨ person = "" ∨ description = ""
     ∨ due_date = None →
     submit_corrective_action_form finding person description due_date file st
     = Outcome (Ok VNone) st
         [Error "Please fill in all required fields (Finding, Responsible Person, Description, Due Date)."]).
Proof.
  split; [|split].
  - intros title department audit_type auditors auditees sd ed file H.
    unfold submit_engagement_form.
    destruct H as [->| [->| ->]]; simpl; [done| |].
    + by rewrite andb_false_r.
    + by rewrite andb_false_r.
  - intros engagement category description file risk root rec H.
    unfold submit_finding_form.
    destruct H as [->| [->| [->| ->]]]; simpl; [done|done| |].
    + by rewrite andb_false_r.
    + by rewrite andb_false_r.
  - intros finding person description due file H.
    unfold submit_corrective_action_form. destruct due as [d|]; [|done].
    destruct H as [->| [->| [->| [->|?]]]]; simpl; [done|done| | |done].
    + by rewrite andb_false_r.
    + by rewrite andb_false_r.
Qed.

Lemma missing_required_field_witness :
  submit_engagement_form "" "Finance" "Financial" "John Doe" "" 738000 738030
    None init
  = Outcome (Ok VNone) init
      [Error "Please fill in all required fields (Title, Department, Auditors)."].
Proof.
  apply (proj1 (missing_required_field init)). by left.
Defined.

(** C6. On a store whose records all have an ID, a status update raises
    nothing and touches no other store.  If no record has the target ID it
    changes nothing and shows nothing.  If one has, the first such record
    gets the new value under Status, its other fields stay as they were,
    and so does every other record. *)
Theorem update_status_in_place (k : store) (selected new_status : string)
    (st : session_state)
    (Hwf : Forall (λ it : item, is_Some (it !! "ID")) (get_store k st)) :
  returned (update_status k selected new_status st) = Ok VNone ∧
  (∀ k', k' ≠ k →
     get_store k' (after (update_status k selected new_status st))
     = get_store k' st) ∧
  ((∀ it : item, it ∈ get_store k st → it !! "ID" ≠ Some (VStr selected)) →
     after (update_status k selected new_status st) = st ∧
     shown (update_status k selected new_status st) = []) ∧
  ((∃ it : item, it ∈ get_store k st ∧ it !! "ID" = Some (VStr selected)) →
     ∃ l1 (r : item) l2 (r' : item),
       get_store k st = l1 ++ r :: l2 ∧
       (∀ it : item, it ∈ l1 → it !! "ID" ≠ Some (VStr selected)) ∧
       r !! "ID" = Some (VStr selected) ∧
       get_store k (after (update_status k selected new_status st))
       = l1 ++ r' :: l2 ∧
       r' !! "Status" = Some (VStr new_status) ∧
       ∀ field, field ≠ "Status" → r' !! field = r !! field).
Proof.
  unfold update_status.
  destruct (first_match selected _ Hwf) as [Hmiss|(l1 & r & l2 & Hsplit & Hl1 & Hr)].
  - rewrite (update_loop_miss selected new_status _ Hmiss). simpl.
    split; [done|]. split; [intros k' Hne; by apply get_set_store_ne|].
    split; [intros _; split; [apply set_get_store|done]|].
    intros (it & Hin & Hid). by destruct (others_not_elem selected _ it Hmiss Hin).
  - rewrite Hsplit, (update_loop_hit selected new_status l1 r l2 Hl1 Hr). simpl.
    split; [done|]. split; [intros k' Hne; by apply get_set_store_ne|].
    split.
    + intros Hnone. destruct (Hnone r); [|done]. set_solver.
    + intros _. exists l1, r, l2, (<["Status" := VStr new_status]> r).
      split; [done|]. split; [intros it; by apply others_not_elem|].
      split; [done|]. split; [apply get_set_store|].
      split; [apply lookup_insert_eq|].
      intros field Hne. by apply lookup_insert_ne.
Qed.

Lemma update_status_in_place_witness :
  let st := Session [] [] [ {[ "ID" := VStr "CA001"; "Status" := VStr "Pending" ]} ] in
  Forall (λ it : item, is_Some (it !! "ID")) (get_store Actions st) ∧
  after (update_status Actions "CA009" "Closed" st) = st ∧
  shown (update_status Actions "CA009" "Closed" st) = [].
Proof.
  assert (Forall (λ it : item, is_Some (it !! "ID"))
            [ ({[ "ID" := VStr "CA001"; "Status" := VStr "Pending" ]} : item) ]) as H.
  { repeat constructor. by eexists. }
  split; [exact H|].
  apply (update_status_in_place Actions "CA009" "Closed" (Session [] [] _) H).
  intros it ->%list_elem_of_singleton. done.
Defined.

(** C7. On a store of corrective actions (each with a status and a due
    date), the overdue count of the dashboard is the number of records
    whose status is neither Verified nor Closed and whose due date is
    strictly before the date of the query; a lone Pending action due the
    day before counts 1, a lone Closed one with that due date counts 0. *)
Theorem overdue_count (today : Z) (st : session_state)
    (Hwf : Forall action_record (corrective_actions st)) :
  overdue_actions today st
  = Ok (Z.of_nat (length (List.filter (overdue today) (corrective_actions st)))) ∧
  (∀ ca : item,
     ca !! "Status" = Some (VStr "Pending") →
     ca !! "Due Date" = Some (VDate (today - 1)) →
     overdue_actions today (Session (audit_engagements st) (audit_findings st) [ca])
     = Ok 1) ∧
  (∀ ca : item,
     ca !! "Status" = Some (VStr "Closed") →
     ca !! "Due Date" = Some (VDate (today - 1)) →
     overdue_actions today (Session (audit_engagements st) (audit_findings st) [ca])
     = Ok 0).
Proof.
  split; [|split].
  - apply count_where_filter. eapply Forall_impl; [exact Hwf|].
    intros ca Hca. by apply overdue_test.
  - intros ca Hs Hd. unfold overdue_actions, getitem. simpl.
    rewrite Hs. simpl. rewrite Hd. simpl.
    by replace (today - 1 <? today) with true by lia.
  - intros ca Hs Hd. unfold overdue_actions, getitem. simpl.
    by rewrite Hs.
Qed.

Lemma overdue_count_witness :
  let ca : item := {[ "Status" := VStr "In Progress"; "Due Date" := VDate 738099 ]} in
  Forall action_record [ca] ∧ overdue_actions 738100 (Session [] [] [ca]) = Ok 1.
Proof.
  assert (Forall action_record
            [ ({[ "Status" := VStr "In Progress"; "Due Date" := VDate 738099 ]} : item) ])
    as H.
  { repeat constructor; by eexists. }
  split; [exact H|].
  exact (proj1 (overdue_count 738100 (Session [] [] _) H)).
Defined.

(** C8. On a store of findings (each with a status), the dashboard's
    percentage is 0 when the store is empty and otherwise the binary64
    value of closed / total * 100, where closed counts the findings whose
    status is Closed; the metric shows it in the format [.1f], which for a
    finite value is a decimal with exactly one digit after the point:
    "0.0%" for the empty store and "50.0%" when one of two findings is
    closed. *)
Theorem percent_closed_value (st : session_state)
    (Hwf : Forall has_status (audit_findings st)) :
  percent_closed st
  = Ok (if 0 <? total_findings st
        then Float (PrimFloat.mul
                      (PrimFloat.div (float_of_int (closed_count st))
                         (float_of_int (total_findings st)))
                      (float_of_int 100))
        else Int 0) ∧
  percent_closed_metric st = (λ p, format_1f p +:+ "%") <$> percent_closed st ∧
  (∀ p, percent_closed st = Ok p → finite p → one_decimal (format_1f p)) ∧
  (audit_findings st = [] →
     percent_closed st = Ok (Int 0) ∧ percent_closed_metric st = Ok "0.0%") ∧
  (total_findings st = 2 → closed_count st = 1 →
     percent_closed_metric st = Ok "50.0%").
Proof.
  assert (percent_closed st
          = Ok (if 0 <? total_findings st
                then Float (PrimFloat.mul
                              (PrimFloat.div (float_of_int (closed_count st))
                                 (float_of_int (total_findings st)))
                              (float_of_int 100))
                else Int 0)) as Hp.
  { unfold percent_closed, true_div. rewrite (closed_findings_count st Hwf). simpl.
    destruct (Z.ltb_spec 0 (total_findings st)) as [Hpos|Hzero]; [|done].
    by replace (total_findings st =? 0) with false by lia. }
  split; [exact Hp|].
  split; [by unfold percent_closed_metric; destruct (percent_closed st)|].
  split; [intros p _; apply format_1f_one_decimal|].
  split.
  - intros Hnil. unfold percent_closed_metric. rewrite Hp.
    unfold total_findings. rewrite Hnil. done.
  - intros Htotal Hclosed. unfold percent_closed_metric.
    rewrite Hp, Htotal, Hclosed. vm_compute. reflexivity.
Qed.

Lemma percent_closed_value_witness :
  ∃ st, run_ops example_run init = Ok st ∧
        Forall has_status (audit_findings st) ∧
        percent_closed_metric st = Ok "50.0%".
Proof.
  exists example_state. split; [exact example_run_state|].
  assert (Forall has_status (audit_findings example_state)) as H.
  { apply reachable_well_formed. exact example_state_reachable. }
  split; [exact H|].
  apply (percent_closed_value _ H); apply example_state_totals.
Defined.

(** C9, at the failing input. With one engagement that carries an uploaded
    report, the dashboard's "Latest Audit Engagements" table has the column
    Audit Report Data and shows the raw bytes in its row, while the table of
    the "View All Engagements" tab, which drops that column first, has
    neither. *)
Theorem recent_engagements_shows_report_data :
  ∃ df df_all (row : item),
    recent_engagements report_session = Ok (Dataframe df) ∧
    "Audit Report Data" ∈ columns df ∧
    index df = [VStr "AE001"] ∧
    rows df = [row] ∧
    row !! "Audit Report Data" = Some (VBytes "%PDF-1.7") ∧
    all_engagements report_session = Ok (Dataframe df_all) ∧
    ("Audit Report Data" ∉ columns df_all) ∧
    ∀ row' : item, row' ∈ rows df_all → row' !! "Audit Report Data" = None.
Proof.
  exists (table_of (recent_engagements report_session)),
         (table_of (all_engagements report_session)),
         (default ∅ (head (rows (table_of (recent_engagements report_session))))).
  split; [vm_compute; reflexivity|].
  split; [apply (bool_decide_unpack _); vm_compute; exact I|].
  split; [vm_compute; reflexivity|].
  split.
  { assert (length (rows (table_of (recent_engagements report_session))) = 1%nat)
      as Hlen by (vm_compute; reflexivity).
    by destruct (rows (table_of (recent_engagements report_session)))
      as [|a [|b l]]. }
  split; [vm_compute; reflexivity|].
  split; [vm_compute; reflexivity|].
  split; [apply (bool_decide_unpack _); vm_compute; exact I|].
  apply Forall_forall, (bool_decide_unpack _). vm_compute. exact I.
Qed.

(** C10. On a store whose IDs are the prefix followed by a numeric suffix,
    and under any limit of the interpreter, [generate_id] returns the same
    identifier (or raises the same exception) for every permutation of the
    records.  More generally its result is the same on any two such stores
    with the same multiset of numeric suffixes: of the suffixes as they are
    written in any case, and of the numbers they denote when the limit
    allows the suffixes of both stores. *)
Theorem generate_id_permutation (maxdigits : nat) (prefix : string)
    (l : list item) (sfx : list (string * Z))
    (Hids : has_suffixes prefix l sfx) :
  (∀ l', l ≡ₚ l' →
         generate_id_with maxdigits prefix l' = generate_id_with maxdigits prefix l) ∧
  (∀ l' sfx', has_suffixes prefix l' sfx' → sfx'.*1 ≡ₚ sfx.*1 →
              generate_id_with maxdigits prefix l'
              = generate_id_with maxdigits prefix l) ∧
  (∀ l' sfx', has_suffixes prefix l' sfx' →
              Forall (allowed maxdigits) sfx → Forall (allowed maxdigits) sfx' →
              sfx'.*2 ≡ₚ sfx.*2 →
              generate_id_with maxdigits prefix l'
              = generate_id_with maxdigits prefix l).
Proof.
  assert (∀ l' sfx', has_suffixes prefix l' sfx' → sfx'.*1 ≡ₚ sfx.*1 →
            generate_id_with maxdigits prefix l'
            = generate_id_with maxdigits prefix l) as Hmulti.
  { intros l' sfx' Hids' Hperm. apply generate_id_with_reads.
    - rewrite (Forall2_length _ _ _ Hids), (Forall2_length _ _ _ Hids').
      apply Permutation_length in Hperm. by rewrite !length_fmap in Hperm.
    - rewrite (has_suffixes_reads _ _ _ _ Hids), (has_suffixes_reads _ _ _ _ Hids').
      apply mapM_permutation; [done|]. by eapply has_suffixes_numerals. }
  split; [|split; [exact Hmulti|]].
  - intros l' Hperm.
    destruct (Permutation_Forall2 Hperm Hids) as (sfx' & Hsfx & Hids').
    apply (Hmulti l' sfx' Hids'). by rewrite <-Hsfx.
  - intros l' sfx' Hids' Hlim Hlim' Hperm. apply generate_id_with_reads.
    + rewrite (Forall2_length _ _ _ Hids), (Forall2_length _ _ _ Hids').
      apply Permutation_length in Hperm. by rewrite !length_fmap in Hperm.
    + rewrite (has_suffixes_values _ _ _ _ Hids Hlim),
        (has_suffixes_values _ _ _ _ Hids' Hlim').
      simpl. by symmetry.
Qed.

Lemma generate_id_permutation_witness :
  has_suffixes "F" [rec_of_id "F002"; rec_of_id "F010"] [("002", 2); ("010", 10)] ∧
  generate_id_with 4300 "F" [rec_of_id "F010"; rec_of_id "F002"]
  = generate_id_with 4300 "F" [rec_of_id "F002"; rec_of_id "F010"].
Proof.
  assert (has_suffixes "F" [rec_of_id "F002"; rec_of_id "F010"]
            [("002", 2); ("010", 10)]) as H.
  { repeat constructor; done. }
  split; [exact H|].
  apply (proj1 (generate_id_permutation 4300 "F" _ _ H)). apply Permutation_swap.
Defined.

(** * Further properties of the code *)

(** ** The identifier generator *)

Lemma id_suffix_with_length maxdigits prefix prefix' (it : item) :
  String.length prefix = String.length prefix' →
  id_suffix_with maxdigits prefix it = id_suffix_with maxdigits prefix' it.
Proof. intros H. unfold id_suffix_with. by rewrite H. Qed.

Lemma suffixes_with_length maxdigits prefix prefix' l :
  String.length prefix = String.length prefix' →
  mapM (id_suffix_with maxdigits prefix) l = mapM (id_suffix_with maxdigits prefix') l.
Proof.
  intros H. induction l as [|it l IH]; [done|].
  simpl. by rewrite (id_suffix_with_length _ _ _ it H), IH.
Qed.

(** The exception of a list comprehension is that of the first element
    that raises. *)
Lemma mapM_Raise {A B} (f : A → result B) l e :
  mapM f l = Raise e ↔
  ∃ l1 x l2, l = l1 ++ x :: l2 ∧ Forall (λ y, ∃ b, f y = Ok b) l1 ∧ f x = Raise e.
Proof.
  split.
  - induction l as [|x l IH]; [done|]. simpl.
    destruct (f x) as [b|e'] eqn:Hx; simpl.
    + destruct (mapM f l) as [bs|e'] eqn:Hl; [done|]. simpl. intros [= ->].
      destruct (IH eq_refl) as (l1 & y & l2 & -> & Hl1 & Hy).
      exists (x :: l1), y, l2. split; [done|]. split; [|done].
      constructor; eauto.
    + intros [= ->]. exists [], x, l. by repeat split.
  - intros (l1 & x & l2 & -> & Hl1 & Hx).
    induction Hl1 as [|y l1 [b Hy] _ IH]; simpl.
    + by rewrite Hx.
    + by rewrite Hy, IH.
Qed.

Lemma int_of_text_raises s e : Py.int_of_text s = Raise e → e = ValueError.
Proof. unfold Py.int_of_text. repeat case_match; congruence. Qed.

Lemma int_of_text_with_raises maxdigits s e :
  CPython.int_of_text maxdigits s = Raise e → e = ValueError.
Proof.
  unfold CPython.int_of_text.
  destruct (Py.int_of_text s) as [z|e'] eqn:Hs; simpl.
  - case_match; congruence.
  - intros [= <-]. by eapply int_of_text_raises.
Qed.

(** [str] refuses exactly the numbers of more digits than the limit. *)
Lemma str_exceeds maxdigits z :
  0 ≤ z →
  CPython.exceeds maxdigits (String.length (Py.str z)) = true ↔
  (0 < maxdigits)%nat ∧ 10 ^ Z.of_nat maxdigits ≤ z.
Proof.
  intros Hz. unfold CPython.exceeds.
  rewrite andb_true_iff, !Nat.ltb_lt. split.
  - intros [Hpos Hlen]. split; [done|].
    destruct (decide (z = 0)) as [->|Hnz]; [simpl in Hlen; lia|].
    destruct (str_length_bounds z ltac:(lia)) as [Hlow _].
    etrans; [|exact Hlow]. apply Z.pow_le_mono_r; lia.
  - intros [Hpos Hbig]. split; [done|].
    assert (0 < 10 ^ Z.of_nat maxdigits) by (apply Z.pow_pos_nonneg; lia).
    destruct (str_length_bounds z ltac:(lia)) as [_ Hup].
    assert (10 ^ Z.of_nat maxdigits < 10 ^ Z.of_nat (String.length (Py.str z)))
      as Hlt by lia.
    apply Z.pow_lt_mono_r_iff in Hlt; lia.
Qed.

Lemma str_with_raises maxdigits z e :
  CPython.str maxdigits z = Raise e ↔
  (0 < maxdigits)%nat ∧ 10 ^ Z.of_nat maxdigits ≤ Z.abs z ∧ e = ValueError.
Proof.
  unfold CPython.str.
  pose proof (str_exceeds maxdigits (Z.abs z) (Z.abs_nonneg z)) as Hex.
  destruct (CPython.exceeds maxdigits (String.length (Py.str (Z.abs z)))).
  - destruct (proj1 Hex eq_refl) as [Hpos Hbig]. split.
    + by intros [= <-].
    + by intros (_ & _ & ->).
  - split; [intros [=]|]. intros (Hpos & Hbig & _).
    pose proof (proj2 Hex (conj Hpos Hbig)). done.
Qed.

(** X1. [generate_id] raises in two cases only.  Either some record's ID
    cannot be read as prefix-length characters followed by an integer
    literal within the limit of the interpreter: the exception is that of
    the first such record, [KeyError] without an ID, [TypeError] when the
    ID is neither text nor bytes, [ValueError] when the rest is no such
    literal.  Or all IDs are read, the limit is set and the next number
    has more digits than it allows: [ValueError].  On the empty store it
    never raises. *)
Theorem generate_id_failure (maxdigits : nat) (prefix : string) (l : list item)
    (e : exn) :
  (generate_id_with maxdigits prefix l = Raise e ↔
     (∃ l1 (it : item) l2,
        l = l1 ++ it :: l2 ∧
        Forall (λ x, ∃ z, id_suffix_with maxdigits prefix x = Ok z) l1 ∧
        id_suffix_with maxdigits prefix it = Raise e) ∨
     (∃ ns m,
        mapM (id_suffix_with maxdigits prefix) l = Ok ns ∧ is_max m ns ∧
        (0 < maxdigits)%nat ∧ 10 ^ Z.of_nat maxdigits ≤ Z.abs (m + 1) ∧
        e = ValueError)) ∧
  (∀ it : item, id_suffix_with maxdigits prefix it = Raise e →
     match it !! "ID" with
     | None => e = KeyError
     | Some (VStr _) | Some (VBytes _) => e = ValueError
     | Some _ => e = TypeError
     end).
Proof.
  split.
  - rewrite <-mapM_Raise. destruct l as [|it l].
    { simpl. split; [done|]. intros [[=]|(ns & m & [= <-] & [Hin _] & _)].
      by apply elem_of_nil in Hin. }
    unfold generate_id_with.
    destruct (mapM (id_suffix_with maxdigits prefix) (it :: l)) as [ns|e'] eqn:Hns.
    2: { simpl. split.
         - intros [= ->]. by left.
         - intros [[= ->]|(ns & m & [=] & _)]. done. }
    assert (ns ≠ []) as Hne.
    { apply mapM_Ok_length in Hns. by destruct ns. }
    destruct (py_max_is_max ns Hne) as (m & Hm & Hmax). simpl. rewrite Hm. simpl.
    destruct (CPython.str maxdigits (m + 1)) as [s|e'] eqn:Hstr; simpl.
    + split; [done|]. intros [[=]|(ns' & m' & [= <-] & Hmax' & Hpos & Hbig & ->)].
      rewrite (is_max_unique _ _ _ _ Hmax' Hmax (reflexivity _)) in Hbig.
      assert (CPython.str maxdigits (m + 1) = Raise ValueError) as Hr.
      { by apply str_with_raises. }
      congruence.
    + apply str_with_raises in Hstr as (Hpos & Hbig & ->). split.
      * intros [= <-]. right. by exists ns, m.
      * intros [[=]|(_ & _ & _ & _ & _ & _ & ->)]. done.
  - intros it. unfold id_suffix_with, getitem.
    destruct (it !! "ID") as [[|s|n|b|d|]|]; simpl; try congruence.
    + apply int_of_text_with_raises.
    + apply int_of_text_with_raises.
Qed.

Lemma generate_id_failure_witness :
  generate_id_with 4300 "F" [rec_of_id "F001"; rec_of_id "Fxyz"] = Raise ValueError.
Proof.
  apply (proj1 (generate_id_failure 4300 "F" _ ValueError)). left.
  exists [rec_of_id "F001"], (rec_of_id "Fxyz"), [].
  split; [reflexivity|]. split; [|reflexivity].
  repeat constructor. by exists 1.
Defined.

(** X2. [generate_id] never looks at the text of the prefix in the stored
    IDs, only at its length: with another prefix of the same length it
    numbers the same store the same way, so a record whose ID starts with
    other characters is counted like any other. *)
Theorem generate_id_prefix_length (maxdigits : nat) (prefix prefix' : string)
    (l : list item) (Hlen : String.length prefix = String.length prefix') :
  generate_id_with maxdigits prefix' l
  = (λ id, prefix' +:+ Py.drop_str (String.length prefix) id)
      <$> generate_id_with maxdigits prefix l.
Proof.
  destruct l as [|it l].
  - simpl. by rewrite drop_str_app.
  - unfold generate_id_with.
    rewrite <-(suffixes_with_length maxdigits prefix prefix' _ Hlen).
    destruct (mapM (id_suffix_with maxdigits prefix) (it :: l)) as [ns|]; [|done].
    simpl. destruct (Py.max ns); [|done]. simpl.
    destruct (CPython.str maxdigits _); [|done]. simpl. by rewrite drop_str_app.
Qed.

Lemma generate_id_prefix_length_witness :
  String.length "AE" = String.length "CA" ∧
  generate_id_with 4300 "CA" [rec_of_id "AE005"] = Ok "CA006".
Proof.
  split; [reflexivity|].
  by rewrite (generate_id_prefix_length 4300 "AE" "CA" _ eq_refl).
Defined.

Lemma has_suffixes_decimal prefix l sfx :
  has_suffixes prefix l sfx → Forall (λ sn, decimal sn.1 sn.2) sfx.
Proof. induction 1 as [|it sn l sfx [_ Hd] _ IH]; constructor; done. Qed.

(** Within the limit the generator is that of the language. *)
Lemma generate_id_within maxdigits prefix l sfx :
  has_suffixes prefix l sfx → Forall (allowed maxdigits) sfx →
  generate_id_with maxdigits prefix l = generate_id prefix l.
Proof.
  intros Hids Hlim. rewrite <-generate_id_lifted.
  destruct l as [|it l]; [done|]. unfold generate_id_with.
  rewrite (has_suffixes_values _ _ _ _ Hids Hlim).
  rewrite (has_suffixes_values 0 _ _ _ Hids).
  2: { apply Forall_forall. intros sn _. by left. }
  assert (sfx.*2 ≠ []) as Hne.
  { apply Forall2_length in Hids. by destruct sfx. }
  destruct (py_max_is_max _ Hne) as (m & Hm & [Hin _]). simpl. rewrite Hm. simpl.
  apply list_elem_of_fmap in Hin as (sn & -> & Hsn).
  assert (decimal sn.1 sn.2) as (_ & Hpos & _).
  { by apply (proj1 (Forall_forall _ _) (has_suffixes_decimal _ _ _ Hids)). }
  rewrite str_allowed; [done|lia|].
  apply (proj1 (Forall_forall _ _) Hlim) in Hsn as [->|[_ Hlt]]; [by left|by right].
Qed.

Lemma reachable_numbered st k : reachable st → numbered (prefix_of k) (get_store k st).
Proof.
  intros [ops Hrun].
  destruct (run_ops_numbered ops init) as (st' & Hrun' & Hst); [by intros []|].
  rewrite Hrun in Hrun'. injection Hrun' as <-. apply Hst.
Qed.

Lemma zero_padded_decimal w n : 0 ≤ n → decimal (zero_padded w n) n.
Proof.
  intros Hn. apply decimal_numeric. destruct (str_nonneg n Hn) as [Hv Hnum].
  destruct (numeric_pad (w - String.length (Py.str n)) _ Hnum) as [Hnum' Hv'].
  unfold zero_padded. split; [done|]. by rewrite Hv'.
Qed.

Lemma zero_padded_allowed maxdigits n :
  0 ≤ n → (3 ≤ maxdigits)%nat → n + 1 < 10 ^ Z.of_nat maxdigits →
  allowed maxdigits (zero_padded 3 n, n).
Proof.
  intros Hn Hmax Hlt. right. split; [|done]. simpl.
  assert (String.length (Py.str n) ≤ maxdigits)%nat.
  { apply str_length_le; lia. }
  unfold zero_padded. rewrite string_length_app, length_repeat0. lia.
Qed.

Lemma numbered_has_suffixes prefix l :
  numbered prefix l →
  has_suffixes prefix l
    ((λ i, (zero_padded 3 (Z.of_nat i), Z.of_nat i)) <$> seq 1 (length l)).
Proof.
  unfold numbered.
  cut (∀ start,
         ids l = (λ i, Some (VStr (prefix +:+ zero_padded 3 (Z.of_nat i))))
                   <$> seq start (length l) →
         has_suffixes prefix l
           ((λ i, (zero_padded 3 (Z.of_nat i), Z.of_nat i)) <$> seq start (length l))).
  { intros H. apply H. }
  induction l as [|it l IH]; intros start.
  - intros _. constructor.
  - simpl. intros [= Hid Hl]. constructor; [|by apply IH].
    split; [done|]. simpl. apply zero_padded_decimal. lia.
Qed.

(** X3. The limit of the interpreter is out of reach of the program: in a
    state reached from the empty stores, [generate_id] under a limit of at
    least three digits returns what it returns with the limit lifted, the
    next ID in sequence, as long as the store holds fewer than
    10^limit - 1 records (with the default limit, 10^4300 - 1). *)
Theorem limit_not_reached (maxdigits : nat) (st : session_state) (k : store)
    (Hst : reachable st)
    (Hlim : maxdigits = 0%nat ∨
            ((3 ≤ maxdigits)%nat ∧
             Z.of_nat (length (get_store k st)) + 1 < 10 ^ Z.of_nat maxdigits)) :
  generate_id_with maxdigits (prefix_of k) (get_store k st)
  = generate_id (prefix_of k) (get_store k st) ∧
  generate_id (prefix_of k) (get_store k st)
  = Ok (prefix_of k +:+ zero_padded 3 (Z.of_nat (S (length (get_store k st))))).
Proof.
  pose proof (reachable_numbered st k Hst) as Hnum.
  split; [|by apply numbered_next].
  destruct Hlim as [->|[Hmax Hlt]]; [apply generate_id_lifted|].
  apply (generate_id_within _ _ _ _ (numbered_has_suffixes _ _ Hnum)).
  apply Forall_fmap, Forall_forall. intros i Hi%elem_of_seq. simpl.
  apply zero_padded_allowed; lia.
Qed.

Lemma limit_not_reached_witness :
  reachable example_state ∧
  generate_id_with CPython.default_max_str_digits "F" (audit_findings example_state)
  = Ok "F003".
Proof.
  split; [exact example_state_reachable|].
  assert (4300%nat = 0%nat ∨
          ((3 ≤ 4300)%nat ∧
           Z.of_nat (length (get_store Findings example_state)) + 1
           < 10 ^ Z.of_nat 4300)) as Hlim.
  { right. split; [lia|].
    change (get_store Findings example_state) with (audit_findings example_state).
    rewrite example_state_findings.
    apply Z.lt_le_trans with (10 ^ 1); [done|]. apply Z.pow_le_mono_r; lia. }
  destruct (limit_not_reached 4300 example_state Findings example_state_reachable Hlim)
    as [Hwith Hnext].
  change (get_store Findings example_state) with (audit_findings example_state)
    in Hwith, Hnext.
  rewrite example_state_findings in Hnext.
  exact (eq_trans Hwith Hnext).
Defined.

Lemma int_of_text_with_Ok maxdigits s z :
  CPython.int_of_text maxdigits s = Ok z → Py.int_of_text s = Ok z.
Proof.
  unfold CPython.int_of_text. destruct (Py.int_of_text s) as [z'|]; [|done].
  simpl. case_match; congruence.
Qed.

Lemma id_suffix_with_Ok maxdigits prefix (it : item) z :
  id_suffix_with maxdigits prefix it = Ok z → id_suffix prefix it = Ok z.
Proof.
  unfold id_suffix_with, id_suffix. destruct (getitem it "ID") as [v|]; [|done].
  simpl. destruct (Py.slice_from v (String.length prefix)) as [w|]; [|done].
  simpl. destruct w as [|s|n|b|d|]; try done; apply int_of_text_with_Ok.
Qed.

Lemma suffixes_with_Ok maxdigits prefix l ns :
  mapM (id_suffix_with maxdigits prefix) l = Ok ns →
  mapM (id_suffix prefix) l = Ok ns.
Proof.
  intros H%mapM_Ok_1. apply mapM_Ok_2.
  eapply Forall2_impl; [exact H|]. intros it z. apply id_suffix_with_Ok.
Qed.

(** X4. The limit only refuses: whatever [generate_id] returns under a
    limit of the interpreter it returns with the limit lifted, on any
    store; so what holds of every ID returned with the limit lifted holds
    under every limit. *)
Theorem limit_only_refuses (maxdigits : nat) (prefix : string) (l : list item)
    (id : string) (Hid : generate_id_with maxdigits prefix l = Ok id) :
  generate_id prefix l = Ok id.
Proof.
  destruct l as [|it l]; [done|]. revert Hid. unfold generate_id_with, generate_id.
  destruct (mapM (id_suffix_with maxdigits prefix) (it :: l)) as [ns|] eqn:Hns;
    [|done].
  rewrite (suffixes_with_Ok _ _ _ _ Hns). simpl.
  destruct (Py.max ns) as [m|]; [|done]. simpl.
  unfold CPython.str. by case_match.
Qed.

Lemma limit_only_refuses_witness :
  generate_id_with 4300 "CA" [rec_of_id "CA041"] = Ok "CA042" ∧
  generate_id "CA" [rec_of_id "CA041"] = Ok "CA042".
Proof.
  assert (generate_id_with 4300 "CA" [rec_of_id "CA041"] = Ok "CA042") as H.
  { reflexivity. }
  split; [exact H|]. exact (limit_only_refuses 4300 "CA" _ _ H).
Defined.

(** ** Status updates *)

Lemma store_after_nil selected new_status : store_after selected new_status [] = [].
Proof. reflexivity. Qed.

(** The store after an update, record by record. *)
Lemma store_after_cons selected new_status (it : item) l :
  store_after selected new_status (it :: l)
  = match it !! "ID" with
    | None => it :: l
    | Some v =>
        if decide (v = VStr selected)
        then <["Status" := VStr new_status]> it :: l
        else it :: store_after selected new_status l
    end.
Proof.
  unfold store_after. simpl. unfold getitem.
  destruct (it !! "ID") as [v|]; [|done]. simpl.
  case_decide; [done|].
  by destruct (update_loop selected new_status l) as [[l' hit]|].
Qed.

Lemma after_update_status k selected new_status st :
  after (update_status k selected new_status st)
  = set_store k (store_after selected new_status (get_store k st)) st.
Proof.
  unfold update_status, store_after.
  destruct (update_loop selected new_status (get_store k st)) as [[l' hit]|];
    [done|]. simpl. by rewrite set_get_store.
Qed.

Lemma set_set_store k l l' st :
  set_store k l (set_store k l' st) = set_store k l st.
Proof. by destruct k. Qed.

Lemma store_after_twice selected s1 s2 l :
  store_after selected s2 (store_after selected s1 l) = store_after selected s2 l.
Proof.
  induction l as [|it l IH]; [done|].
  rewrite (store_after_cons selected s1), (store_after_cons selected s2 it).
  destruct (it !! "ID") as [v|] eqn:Hv.
  - case_decide as Hsel.
    + rewrite store_after_cons, lookup_insert_ne, Hv by done.
      rewrite decide_True by done. by rewrite insert_insert_eq.
    + rewrite store_after_cons, Hv, decide_False by done. by rewrite IH.
  - by rewrite store_after_cons, Hv.
Qed.

Lemma store_after_comm sel1 sel2 s1 s2 l :
  sel1 ≠ sel2 →
  store_after sel1 s1 (store_after sel2 s2 l)
  = store_after sel2 s2 (store_after sel1 s1 l).
Proof.
  intros Hne. induction l as [|it l IH]; [done|].
  rewrite (store_after_cons sel2 s2 it), (store_after_cons sel1 s1 it).
  destruct (it !! "ID") as [v|] eqn:Hv.
  - destruct (decide (v = VStr sel2)) as [E2|H2];
      destruct (decide (v = VStr sel1)) as [E1|H1]; try congruence.
    + rewrite !store_after_cons, lookup_insert_ne, Hv by done.
      rewrite decide_False, decide_True by done. done.
    + rewrite !store_after_cons, ?lookup_insert_ne, Hv by done.
      rewrite decide_True, decide_False by done. done.
    + rewrite !store_after_cons, Hv, !decide_False by done. by rewrite IH.
  - by rewrite !store_after_cons, Hv.
Qed.

(** X5. The last write wins: two status updates of the same ID in a row
    leave the session state that the second alone leaves, on any store
    (in particular repeating an update changes nothing more). *)
Theorem update_last_wins (k : store) (selected s1 s2 : string)
    (st : session_state) :
  after (update_status k selected s2 (after (update_status k selected s1 st)))
  = after (update_status k selected s2 st).
Proof.
  rewrite !after_update_status, get_set_store, set_set_store.
  by rewrite store_after_twice.
Qed.

(** X6. Status updates of two different IDs in the same store commute:
    either order leaves the same session state, on any store. *)
Theorem updates_commute (k : store) (sel1 sel2 s1 s2 : string)
    (st : session_state) (Hne : sel1 ≠ sel2) :
  after (update_status k sel1 s1 (after (update_status k sel2 s2 st)))
  = after (update_status k sel2 s2 (after (update_status k sel1 s1 st))).
Proof.
  rewrite !after_update_status, !get_set_store, !set_set_store.
  by rewrite store_after_comm.
Qed.

Lemma updates_commute_witness :
  "F001" ≠ "F002" ∧
  ∃ st, run_ops example_run init = Ok st ∧
    after (update_status Findings "F001" "Open"
             (after (update_status Findings "F002" "Closed" st)))
    = after (update_status Findings "F002" "Closed"
               (after (update_status Findings "F001" "Open" st))).
Proof.
  split; [done|]. exists example_state. split; [exact example_run_state|].
  apply (updates_commute Findings "F001" "F002" "Open" "Closed"). done.
Defined.

(** ** Records along a run, continued *)

Lemma same_but_status_refl (a : item) : same_but_status a a.
Proof. by intros field _. Qed.

Lemma same_but_status_trans (a b c : item) :
  same_but_status a b → same_but_status b c → same_but_status a c.
Proof. intros Hab Hbc field Hf. by rewrite (Hab field Hf), (Hbc field Hf). Qed.

Lemma same_but_status_all l : Forall2 same_but_status l l.
Proof. induction l; constructor; auto using same_but_status_refl. Qed.

Lemma same_but_status_all_trans l1 l2 l3 :
  Forall2 same_but_status l1 l2 → Forall2 same_but_status l2 l3 →
  Forall2 same_but_status l1 l3.
Proof.
  intros H12. revert l3. induction H12 as [|a b l1 l2 Hab _ IH]; intros l3 H23.
  - by inv H23.
  - inv H23. constructor; eauto using same_but_status_trans.
Qed.

Lemma store_after_same selected new_status l :
  Forall2 same_but_status l (store_after selected new_status l).
Proof.
  induction l as [|it l IH]; [constructor|].
  rewrite store_after_cons. destruct (it !! "ID") as [v|].
  - case_decide.
    + constructor; [|apply same_but_status_all].
      intros field Hf. by rewrite lookup_insert_ne.
    + constructor; [apply same_but_status_refl|done].
  - apply same_but_status_all.
Qed.

Lemma store_after_ids selected new_status l :
  ids (store_after selected new_status l) = ids l.
Proof.
  unfold store_after.
  destruct (update_loop selected new_status l) as [[l' hit]|] eqn:Hloop; [|done].
  by eapply update_loop_ids.
Qed.

Lemma run_op_keeps o st k :
  ∃ kept added,
    get_store k (after (run_op o st)) = kept ++ added ∧
    Forall2 same_but_status (get_store k st) kept ∧
    (∀ v, returned (run_op o st) = Ok v → length added = creations k [o]).
Proof.
  destruct (creates o) as [k0|] eqn:Hk.
  - pose proof (run_create o k0 st Hk) as Hrun.
    destruct (generate_id (prefix_of k0) (get_store k0 st)) as [id|e].
    + destruct Hrun as (r & pre & post & -> & _). simpl.
      destruct (decide (k = k0)) as [->|Hne].
      * exists (get_store k0 st), [r]. rewrite get_set_store.
        split; [done|]. split; [apply same_but_status_all|].
        intros _ _. by rewrite creations_cons, decide_True.
      * exists (get_store k st), []. rewrite get_set_store_ne, app_nil_r by done.
        split; [done|]. split; [apply same_but_status_all|].
        intros _ _. rewrite creations_cons, decide_False by congruence. done.
    + rewrite Hrun. simpl. exists (get_store k st), [].
      rewrite app_nil_r. split; [done|]. split; [apply same_but_status_all|done].
  - destruct o as [| | |k0 sel new]; try done.
    change (run_op (UpdateStatus k0 sel new) st) with (update_status k0 sel new st).
    rewrite after_update_status.
    destruct (decide (k = k0)) as [->|Hne].
    + exists (store_after sel new (get_store k0 st)), [].
      rewrite get_set_store, app_nil_r.
      split; [done|]. split; [apply store_after_same|done].
    + exists (get_store k st), []. rewrite get_set_store_ne, app_nil_r by done.
      split; [done|]. split; [apply same_but_status_all|done].
Qed.

(** X7. Records are never removed, reordered or rewritten: after any run
    each store consists of its former records, in place and in order, each
    changed at most in its status, followed by the records created since,
    one for each creation in that store. *)
Theorem records_kept (ops : list op) (st st' : session_state) (k : store)
    (Hrun : run_ops ops st = Ok st') :
  ∃ kept added,
    get_store k st' = kept ++ added ∧
    Forall2 same_but_status (get_store k st) kept ∧
    length added = creations k ops.
Proof.
  revert st Hrun. induction ops as [|o ops IH]; intros st Hrun; simpl in Hrun.
  - injection Hrun as <-. exists (get_store k st), [].
    rewrite app_nil_r. split; [done|]. split; [apply same_but_status_all|done].
  - destruct (run_op_keeps o st k) as (kept1 & added1 & Hst1 & Hkept1 & Hlen1).
    destruct (returned (run_op o st)) as [v|e] eqn:Hret; [|done].
    destruct (IH _ Hrun) as (kept2 & added2 & Hst2 & Hkept2 & Hlen2).
    rewrite Hst1 in Hkept2.
    apply Forall2_app_inv_l in Hkept2 as (k21 & k22 & Hk21 & Hk22 & ->).
    exists k21, (k22 ++ added2). split; [by rewrite Hst2, <-app_assoc|].
    split; [by eapply same_but_status_all_trans|].
    rewrite length_app, <-(Forall2_length _ _ _ Hk22), Hlen2, (Hlen1 v eq_refl).
    rewrite (creations_cons k o ops), creations_cons. unfold creations. simpl. lia.
Qed.

Lemma records_kept_witness :
  ∃ st', run_ops example_run init = Ok st' ∧
  ∃ kept added,
    audit_findings st' = kept ++ added ∧
    Forall2 same_but_status [] kept ∧ length added = 2%nat.
Proof.
  exists example_state. split; [exact example_run_state|].
  apply (records_kept example_run init _ Findings). exact example_run_state.
Defined.

Lemma dom_status_insert k new_status (r : item) :
  dom r = keys_of k → dom (<["Status" := VStr new_status]> r) = keys_of k.
Proof.
  intros Hr. rewrite dom_insert_L, Hr.
  apply subseteq_union_1_L, singleton_subseteq_l.
  destruct k; apply (bool_decide_unpack _); vm_compute; exact I.
Qed.

Lemma run_op_keys o st :
  (∀ k, Forall (λ r : item, dom r = keys_of k) (get_store k st)) →
  ∀ k, Forall (λ r : item, dom r = keys_of k) (get_store k (after (run_op o st))).
Proof.
  intros Hst. destruct o as [| | |k0 sel new]; simpl.
  - unfold add_audit_engagement.
    destruct (generate_id "AE" (audit_engagements st)); [|done].
    intros []; simpl; [|apply (Hst Findings)|apply (Hst Actions)].
    apply Forall_app. split; [apply (Hst Engagements)|].
    repeat constructor.
  - unfold add_audit_finding.
    destruct (generate_id "F" (audit_findings st)); [|done].
    intros []; simpl; [apply (Hst Engagements)| |apply (Hst Actions)].
    apply Forall_app. split; [apply (Hst Findings)|].
    repeat constructor.
  - unfold add_corrective_action.
    destruct (generate_id "CA" (corrective_actions st)); [|done].
    intros []; simpl; [apply (Hst Engagements)|apply (Hst Findings)|].
    apply Forall_app. split; [apply (Hst Actions)|].
    repeat constructor.
  - intros k. rewrite after_update_status.
    destruct (decide (k = k0)) as [->|Hne]; [|by rewrite get_set_store_ne].
    rewrite get_set_store. unfold store_after.
    destruct (update_loop sel new (get_store k0 st)) as [[l' hit]|] eqn:Hloop;
      [|done].
    eapply update_loop_Forall; [|apply Hst|exact Hloop].
    intros it. apply dom_status_insert.
Qed.

Lemma reachable_keys st k :
  reachable st → Forall (λ r : item, dom r = keys_of k) (get_store k st).
Proof.
  intros [ops Hrun]. revert k.
  assert (∀ k, Forall (λ r : item, dom r = keys_of k) (get_store k init)) as Hinit.
  { intros []; constructor. }
  revert Hinit Hrun. generalize init.
  induction ops as [|o ops IH]; intros st0 Hst0 Hrun; simpl in Hrun.
  - by injection Hrun as <-.
  - destruct (returned (run_op o st0)); [|done].
    apply (IH (after (run_op o st0))); [|done]. by apply run_op_keys.
Qed.

(** X8. In every state reached from the empty stores, each record has
    exactly the keys of the record literal of its [add_*] function (eleven
    for an engagement, ten for a finding, eight for a corrective action):
    no operation adds a key to a record or removes one. *)
Theorem record_keys (st : session_state) (k : store) (Hst : reachable st) :
  Forall (λ r : item, dom r = keys_of k) (get_store k st).
Proof. by apply reachable_keys. Qed.

Lemma record_keys_witness :
  ∃ st, reachable st ∧ length (audit_findings st) = 2%nat ∧
        Forall (λ r : item, dom r = keys_of Findings) (audit_findings st).
Proof.
  exists example_state.
  split; [exact example_state_reachable|].
  split; [exact example_state_findings|].
  exact (record_keys _ Findings example_state_reachable).
Defined.

Lemma prefixes_differ k k' x y :
  prefix_of k +:+ x = prefix_of k' +:+ y → k = k'.
Proof. destruct k, k'; simpl; rewrite ?app_cons; congruence. Qed.

(** X9. In every state reached from the empty stores no ID occurs in two
    stores: the three prefixes start with different letters, so a
    reference by ID names records of one store only. *)
Theorem ids_disjoint (st : session_state) (k k' : store) (id : option value)
    (Hst : reachable st) (Hne : k ≠ k')
    (Hin : id ∈ ids (get_store k st)) :
  id ∉ ids (get_store k' st).
Proof.
  destruct Hst as [ops Hrun].
  destruct (run_ops_numbered ops init) as (st' & Hrun' & Hnum).
  { by intros []. }
  rewrite Hrun in Hrun'. injection Hrun' as <-.
  destruct (Hnum k) as [Hk _]. destruct (Hnum k') as [Hk' _].
  unfold numbered in Hk, Hk'. rewrite Hk in Hin. rewrite Hk'.
  apply list_elem_of_fmap in Hin as (i & -> & _).
  intros (j & [= Heq] & _)%list_elem_of_fmap.
  by apply prefixes_differ in Heq.
Qed.

Lemma ids_disjoint_witness :
  reachable example_state ∧ Findings ≠ Engagements ∧
  Some (VStr "F001") ∈ ids (get_store Findings example_state) ∧
  Some (VStr "F001") ∉ ids (get_store Engagements example_state).
Proof.
  assert (Some (VStr "F001") ∈ ids (get_store Findings example_state)) as Hin.
  { vm_compute. left. }
  split; [exact example_state_reachable|]. split; [done|]. split; [exact Hin|].
  exact (ids_disjoint _ Findings Engagements _ example_state_reachable
           ltac:(done) Hin).
Defined.

Lemma generated_others prefix l id :
  generate_id prefix l = Ok id → others id l.
Proof.
  intros Hgen. destruct (generate_id_inv _ _ _ Hgen) as (n & ns & Hns & _).
  pose proof (suffixes_have_id _ _ _ Hns) as Hids.
  apply Forall_forall. intros it Hin.
  destruct (proj1 (Forall_forall _ _) Hids it Hin) as [v Hv].
  exists v. split; [done|]. intros ->.
  by apply (generate_id_fresh _ _ _ it Hgen Hin).
Qed.

(** X10. The ID a creation assigns selects the new record: a status update
    with that ID right after a successful creation rewrites the status of
    the record just appended and of no other, and shows its message. *)
Theorem update_created_record (o : op) (k : store) (st : session_state)
    (v : value) (new_status : string)
    (Hk : creates o = Some k) (Hok : returned (run_op o st) = Ok v) :
  ∃ id (r : item),
    generate_id (prefix_of k) (get_store k st) = Ok id ∧
    after (run_op o st) = set_store k (get_store k st ++ [r]) st ∧
    r !! "ID" = Some (VStr id) ∧
    after (update_status k id new_status (after (run_op o st)))
    = set_store k (get_store k st ++ [<["Status" := VStr new_status]> r]) st ∧
    shown (update_status k id new_status (after (run_op o st)))
    = [Success ("Status of " +:+ update_label k +:+ " " +:+ id
                +:+ " updated to " +:+ new_status)].
Proof.
  pose proof (run_create o k st Hk) as Hrun.
  destruct (generate_id (prefix_of k) (get_store k st)) as [id|e] eqn:Hgen;
    [|by rewrite Hrun in Hok].
  destruct Hrun as (r & pre & post & Hrun & Hr & _).
  exists id, r. rewrite Hrun. simpl.
  split; [done|]. split; [done|]. split; [done|].
  unfold update_status. rewrite get_set_store.
  rewrite (update_loop_hit id new_status _ r [] (generated_others _ _ _ Hgen) Hr).
  simpl. by rewrite set_set_store.
Qed.

Lemma update_created_record_witness :
  creates example_finding = Some Findings ∧
  returned (run_op example_finding example_state) = Ok (VStr "F003") ∧
  ∃ id (r : item),
    generate_id "F" (audit_findings example_state) = Ok id ∧
    after (run_op example_finding example_state)
    = set_store Findings (audit_findings example_state ++ [r]) example_state ∧
    r !! "ID" = Some (VStr id) ∧
    after (update_status Findings id "Closed"
             (after (run_op example_finding example_state)))
    = set_store Findings
        (audit_findings example_state ++ [<["Status" := VStr "Closed"]> r])
        example_state ∧
    shown (update_status Findings id "Closed"
             (after (run_op example_finding example_state)))
    = [Success ("Status of " +:+ "Finding" +:+ " " +:+ id
                +:+ " updated to " +:+ "Closed")].
Proof.
  split; [reflexivity|]. split; [exact example_finding_returned|].
  exact (update_created_record example_finding Findings example_state
           (VStr "F003") "Closed" eq_refl example_finding_returned).
Defined.

(** ** References between the stores *)

Lemma linked_nil field parents : linked field [] parents.
Proof. intros c Hc. by apply elem_of_nil in Hc. Qed.

Lemma linked_parents field children parents parents' :
  (∀ v, v ∈ ids parents → v ∈ ids parents') →
  linked field children parents → linked field children parents'.
Proof. intros Hsub Hl c Hc. destruct (Hl c Hc) as (v & Hv & Hin). eauto. Qed.

Lemma linked_snoc field children parents (r : item) v :
  linked field children parents → r !! field = Some v → Some v ∈ ids parents →
  linked field (children ++ [r]) parents.
Proof.
  intros Hl Hr Hv c [Hc| ->%list_elem_of_singleton]%elem_of_app; eauto.
Qed.

Lemma linked_same field children children' parents :
  field ≠ "Status" → Forall2 same_but_status children children' →
  linked field children parents → linked field children' parents.
Proof.
  intros Hf Hsame Hl c' Hc'.
  apply list_elem_of_lookup in Hc' as [i Hi].
  destruct (Forall2_lookup_r _ _ _ _ _ Hsame Hi) as (c & Hc & Hcc').
  destruct (Hl c) as (v & Hv & Hin); [by eapply list_elem_of_lookup_2|].
  exists v. by rewrite <-(Hcc' field Hf).
Qed.

Lemma ids_grow l l' v : v ∈ ids l → v ∈ ids (l ++ l').
Proof. intros Hv. rewrite ids_app. apply elem_of_app. by left. Qed.

Lemma ids_store_after selected new_status l v :
  v ∈ ids l → v ∈ ids (store_after selected new_status l).
Proof. by rewrite store_after_ids. Qed.

(** X11. References stay valid: if every finding names an existing
    engagement and every corrective action an existing finding, this still
    holds after any operation, provided a creation names a parent that
    exists (an update never touches a reference or an ID, and nothing is
    ever removed). *)
Theorem links_preserved (o : op) (st : session_state)
    (Hst : well_linked st) (Hparent : parent_exists o st) :
  well_linked (after (run_op o st)).
Proof.
  destruct Hst as [Hf Ha]. destruct o as [| | |k sel new]; simpl.
  - unfold add_audit_engagement.
    destruct (generate_id "AE" (audit_engagements st)); [|done]. simpl.
    split; [|done]. eapply linked_parents; [|exact Hf].
    intros v Hv. by apply ids_grow.
  - unfold add_audit_finding.
    destruct (generate_id "F" (audit_findings st)); [|done]. simpl. split.
    + by eapply linked_snoc.
    + eapply linked_parents; [|exact Ha].
      intros v Hv. by apply ids_grow.
  - unfold add_corrective_action.
    destruct (generate_id "CA" (corrective_actions st)); [|done]. simpl.
    split; [done|]. by eapply linked_snoc.
  - rewrite after_update_status. destruct k; simpl; split; try done.
    + eapply linked_parents; [|exact Hf]. intros v. apply ids_store_after.
    + eapply linked_same; [done|apply store_after_same|done].
    + eapply linked_parents; [|exact Ha]. intros v. apply ids_store_after.
    + eapply linked_same; [done|apply store_after_same|done].
Qed.

Lemma links_preserved_witness :
  well_linked (Session [rec_of_id "AE001"] [] []) ∧
  parent_exists example_finding (Session [rec_of_id "AE001"] [] []) ∧
  well_linked (after (run_op example_finding (Session [rec_of_id "AE001"] [] []))).
Proof.
  assert (well_linked (Session [rec_of_id "AE001"] [] [])) as Hl.
  { split; apply linked_nil. }
  assert (parent_exists example_finding (Session [rec_of_id "AE001"] [] [])) as Hp.
  { left. }
  split; [exact Hl|]. split; [exact Hp|].
  exact (links_preserved example_finding _ Hl Hp).
Defined.

(** ** Dashboard counts *)

Lemma count_where_bounds p l n :
  count_where p l = Ok n → 0 ≤ n ≤ Z.of_nat (length l).
Proof.
  revert n. induction l as [|x l IH]; intros n; simpl.
  - intros [= <-]. lia.
  - destruct (p x) as [b|]; [|done]. simpl.
    destruct (count_where p l) as [m|]; [|done]. simpl.
    intros [= <-]. specialize (IH m eq_refl). destruct b; lia.
Qed.

(** X12. The counts of the dashboard never exceed the totals shown next
    to them: whenever they are computed, completed audits lie between 0
    and the number of engagements, closed findings between 0 and the
    number of findings, overdue actions between 0 and the number of
    corrective actions. *)
Theorem dashboard_counts_bounded (st : session_state) :
  (∀ n, completed_audits st = Ok n → 0 ≤ n ≤ total_audits st) ∧
  (∀ n, closed_findings st = Ok n → 0 ≤ n ≤ total_findings st) ∧
  (∀ today n, overdue_actions today st = Ok n →
              0 ≤ n ≤ Z.of_nat (length (corrective_actions st))).
Proof.
  split; [|split].
  - intros n. apply count_where_bounds.
  - intros n. apply count_where_bounds.
  - intros today n. apply count_where_bounds.
Qed.

Lemma overdue_test_done today ca :
  done_action ca →
  (status ← getitem ca "Status";
   if bool_decide (status ∉ [VStr "Verified"; VStr "Closed"])
   then due ← getitem ca "Due Date"; date_lt due today
   else Ok false) = Ok (overdue today ca).
Proof.
  intros Hdone. unfold getitem, overdue.
  destruct Hdone as [Hs|Hs]; rewrite Hs; simpl.
  - by repeat case_match.
  - repeat case_match; try done.
Qed.

Lemma overdue_done today ca : done_action ca → overdue today ca = false.
Proof.
  intros Hdone. unfold overdue. destruct Hdone as [Hs|Hs]; rewrite Hs.
  - by repeat case_match.
  - by repeat case_match.
Qed.

Lemma filter_none {A} (q : A → bool) l :
  Forall (λ x, q x = false) l → List.filter q l = [].
Proof. induction 1 as [|x l Hx _ IH]; [done|]. simpl. by rewrite Hx. Qed.

(** X13. A corrective action whose status is Verified or Closed is never
    overdue and its due date is not even read: the count is computed, and
    leaves such records out, also when their due date is missing or is not
    a date; when every action is Verified or Closed the count is 0 for
    every query date. *)
Theorem overdue_skips_done (today : Z) (st : session_state)
    (Hst : Forall (λ ca, done_action ca ∨ action_record ca) (corrective_actions st)) :
  overdue_actions today st
  = Ok (Z.of_nat (length (List.filter (overdue today) (corrective_actions st)))) ∧
  (Forall done_action (corrective_actions st) → overdue_actions today st = Ok 0).
Proof.
  assert (overdue_actions today st
          = Ok (Z.of_nat (length (List.filter (overdue today) (corrective_actions st)))))
    as Hcount.
  { apply count_where_filter. eapply Forall_impl; [exact Hst|].
    intros ca [Hdone|Hrec]; [by apply overdue_test_done|by apply overdue_test]. }
  split; [done|]. intros Hdone. rewrite Hcount, filter_none; [done|].
  eapply Forall_impl; [exact Hdone|]. apply overdue_done.
Qed.

Lemma overdue_skips_done_witness :
  Forall (λ ca, done_action ca ∨ action_record ca)
    [ ({[ "Status" := VStr "Verified" ]} : item) ] ∧
  overdue_actions 738100 (Session [] [] [ {[ "Status" := VStr "Verified" ]} ]) = Ok 0.
Proof.
  assert (Forall (λ ca, done_action ca ∨ action_record ca)
            [ ({[ "Status" := VStr "Verified" ]} : item) ]) as H.
  { repeat constructor. }
  split; [exact H|].
  apply (overdue_skips_done 738100 (Session [] [] _) H).
  repeat constructor.
Defined.

Lemma count_where_Raise p l e :
  count_where p l = Raise e ↔
  ∃ l1 x l2, l = l1 ++ x :: l2 ∧ Forall (λ y, ∃ b, p y = Ok b) l1 ∧ p x = Raise e.
Proof.
  split.
  - induction l as [|x l IH]; [done|]. simpl.
    destruct (p x) as [b|e'] eqn:Hx; simpl.
    + destruct (count_where p l) as [m|e'] eqn:Hl; [done|]. simpl. intros [= ->].
      destruct (IH eq_refl) as (l1 & y & l2 & -> & Hl1 & Hy).
      exists (x :: l1), y, l2. split; [done|]. split; [|done].
      constructor; eauto.
    + intros [= ->]. exists [], x, l. by repeat split.
  - intros (l1 & x & l2 & -> & Hl1 & Hx).
    induction Hl1 as [|y l1 [b Hy] _ IH]; simpl.
    + by rewrite Hx.
    + by rewrite Hy, IH.
Qed.

(** X14. The overdue count fails on the first corrective action that
    cannot be tested: [KeyError] when it has no status, or a status other
    than Verified and Closed and no due date; [TypeError] when such a
    record's due date is not a date.  It raises nothing else. *)
Theorem overdue_failure (today : Z) (st : session_state) (e : exn)
    (Hraise : overdue_actions today st = Raise e) :
  ∃ l1 (ca : item) l2,
    corrective_actions st = l1 ++ ca :: l2 ∧
    Forall (λ x : item, done_action x ∨
                        (is_Some (x !! "Status") ∧ ∃ d, x !! "Due Date" = Some (VDate d)))
      l1 ∧
    ¬ done_action ca ∧
    ((e = KeyError ∧ (ca !! "Status" = None ∨ ca !! "Due Date" = None)) ∨
     (e = TypeError ∧ ∃ v, ca !! "Due Date" = Some v ∧ ∀ d, v ≠ VDate d)).
Proof.
  apply count_where_Raise in Hraise as (l1 & ca & l2 & Hl & Hl1 & Hca).
  exists l1, ca, l2. split; [done|]. split; [|split].
  - eapply Forall_impl; [exact Hl1|]. intros x [b Hx]. revert Hx.
    unfold getitem. destruct (x !! "Status") as [s|] eqn:Hs; [|done]. simpl.
    case_bool_decide as Hopen.
    + destruct (x !! "Due Date") as [[ | | | |d| ]|]; try done.
      intros _. right. eauto.
    + intros _. left. unfold done_action.
      destruct (decide (s = VStr "Verified")) as [->|Hv]; [by left|].
      destruct (decide (s = VStr "Closed")) as [->|Hc]; [by right|].
      apply elem_of_cons in Hopen as [?|Hin]; [done|].
      apply elem_of_cons in Hin as [?|Hin]; [done|].
      by apply elem_of_nil in Hin.
  - intros Hdone. by rewrite (overdue_test_done today ca Hdone) in Hca.
  - revert Hca. unfold getitem.
    destruct (ca !! "Status") as [s|]; [|intros [= <-]; left; auto]. simpl.
    case_bool_decide; [|done].
    destruct (ca !! "Due Date") as [v|]; [|intros [= <-]; left; auto]. simpl.
    destruct v; simpl; try done; intros [= <-]; right; split; try done;
      eexists; (split; [done|]); done.
Qed.

Lemma overdue_failure_witness :
  overdue_actions 738100 (Session [] [] [ {[ "Status" := VStr "Pending" ]} ])
  = Raise KeyError ∧
  ∃ l1 (ca : item) l2,
    [ ({[ "Status" := VStr "Pending" ]} : item) ] = l1 ++ ca :: l2 ∧
    Forall (λ x : item, done_action x ∨
                        (is_Some (x !! "Status") ∧ ∃ d, x !! "Due Date" = Some (VDate d)))
      l1 ∧
    ¬ done_action ca ∧
    ((KeyError = KeyError ∧ (ca !! "Status" = None ∨ ca !! "Due Date" = None)) ∨
     (KeyError = TypeError ∧ ∃ v, ca !! "Due Date" = Some v ∧ ∀ d, v ≠ VDate d)).
Proof.
  split; [reflexivity|].
  exact (overdue_failure 738100 (Session [] [] [ {[ "Status" := VStr "Pending" ]} ])
           KeyError eq_refl).
Defined.

Lemma filter_length_mono {A} (q q' : A → bool) l :
  (∀ x, q x = true → q' x = true) →
  (length (List.filter q l) ≤ length (List.filter q' l))%nat.
Proof.
  intros Hq. induction l as [|x l IH]; [done|]. simpl.
  destruct (q x) eqn:Hx.
  - rewrite (Hq x Hx). simpl. lia.
  - destruct (q' x); simpl; lia.
Qed.

Lemma overdue_later today today' ca :
  today ≤ today' → overdue today ca = true → overdue today' ca = true.
Proof.
  intros Hle. unfold overdue. repeat case_match; try done.
  intros [Hs Hd%Z.ltb_lt]%andb_true_iff. rewrite Hs. simpl.
  apply Z.ltb_lt. lia.
Qed.

(** X15. The overdue count only grows with the date of the query: on a
    store of corrective actions, a later date never gives a smaller
    count. *)
Theorem overdue_monotone (today today' : Z) (st : session_state)
    (Hst : Forall action_record (corrective_actions st))
    (Hle : today ≤ today') :
  ∃ n n', overdue_actions today st = Ok n ∧
          overdue_actions today' st = Ok n' ∧ n ≤ n'.
Proof.
  assert (∀ day, overdue_actions day st
            = Ok (Z.of_nat (length (List.filter (overdue day) (corrective_actions st)))))
    as Hcount.
  { intros day. apply count_where_filter. eapply Forall_impl; [exact Hst|].
    intros ca Hca. by apply overdue_test. }
  eexists _, _. split; [apply Hcount|]. split; [apply Hcount|].
  apply inj_le, filter_length_mono. intros ca. by apply overdue_later.
Qed.

Lemma overdue_monotone_witness :
  Forall action_record
    [ ({[ "Status" := VStr "Pending"; "Due Date" := VDate 738050 ]} : item) ] ∧
  738000 ≤ 738100 ∧
  ∃ n n',
    overdue_actions 738000
      (Session [] [] [ {[ "Status" := VStr "Pending"; "Due Date" := VDate 738050 ]} ])
    = Ok n ∧
    overdue_actions 738100
      (Session [] [] [ {[ "Status" := VStr "Pending"; "Due Date" := VDate 738050 ]} ])
    = Ok n' ∧ n ≤ n'.
Proof.
  assert (Forall action_record
            [ ({[ "Status" := VStr "Pending"; "Due Date" := VDate 738050 ]} : item) ])
    as H.
  { repeat constructor; by eexists. }
  split; [exact H|]. split; [lia|].
  apply (overdue_monotone 738000 738100 (Session [] [] _) H). lia.
Defined.

(** ** Tables *)








